(** * fast_compress: a shallow embedding of the greedy phrase merger

    The repository ships two near-identical Rust implementations of the
    merger:
    - [src/data/fast_compress/src/lib.rs]: the single-call interface
      exported to Python ([py_compress] / [compress]);
    - [src/data/fast_compress/src/main.rs]: the file-orchestrated tool,
      whose [compress] works on an [offset] of a token file and caps every
      push with [push_to_compressed_ids].

    Modelling conventions.
    - [usize] is [nat]; the parameters used by the code never overflow in
      the settings considered, so no wrap-around is written out.
    - A Rust panic ([unwrap] on [None], out-of-range indexing) is [None] in
      the [option] monad below.
    - The [while] loops are run with explicit fuel; [run_result] tells a
      finished loop from a panic and from a loop that has not finished
      within the fuel given.
    - [FxHashMap<Vec<usize>, usize>] is an association list.  Its iteration
      order is unspecified in Rust; the code only iterates it through a
      stable sort by value, and the model iterates it in list order.
    - [fastset::Set] is the list of the ids inserted into it. *)

From Stdlib Require Import List Arith Lia Bool ZArith.
Import ListNotations.

(** Rust's panicking operations, in the option monad. *)
Notation "'let!' x ':=' e 'in' f" :=
  (match e with Some x => f | None => None end)
  (at level 200, x name, e at level 100, f at level 200).

Inductive run_result (A : Type) : Type :=
| Finished (a : A)
| Panicked
| OutOfFuel.
Arguments Finished {A} a.
Arguments Panicked {A}.
Arguments OutOfFuel {A}.

(** ** [FxHashMap<Vec<usize>, usize>] *)
Module Codebook.

Definition t := list (list nat * nat).

Definition empty : t := [].

(** [HashMap::get] *)
Fixpoint get (cb : t) (k : list nat) : option nat :=
  match cb with
  | [] => None
  | (k', v) :: cb' => if list_eq_dec Nat.eq_dec k k' then Some v else get cb' k
  end.

(** [HashMap::contains_key] *)
Definition contains_key (cb : t) (k : list nat) : bool :=
  match get cb k with Some _ => true | None => false end.

(** [HashMap::insert]: overwrites the value of a present key, adds the
    key otherwise. *)
Fixpoint insert (cb : t) (k : list nat) (v : nat) : t :=
  match cb with
  | [] => [(k, v)]
  | (k', v') :: cb' =>
      if list_eq_dec Nat.eq_dec k k' then (k, v) :: cb'
      else (k', v') :: insert cb' k v
  end.

Definition keys (cb : t) : list (list nat) := map fst cb.
Definition values (cb : t) : list nat := map snd cb.

End Codebook.

(** ** [fastset::Set] *)
Module FastSet.

Definition t := list nat.

(** The capacity only sizes the bit table; it does not change membership. *)
Definition with_capacity (_ : nat) : t := [].

Definition contains (s : t) (x : nat) : bool := existsb (Nat.eqb x) s.

Definition insert (s : t) (x : nat) : t := if contains s x then s else s ++ [x].

End FastSet.

(** ** Helpers shared by [lib.rs] and [main.rs] *)

(** [codebook_contains] (lib.rs 7-17, main.rs 29-39) *)
Definition codebook_contains (codebook : Codebook.t) (ids : list nat)
    (initial_vocab_size : nat) : bool :=
  match ids with
  | [x] => x <? initial_vocab_size
  | _ => Codebook.contains_key codebook ids
  end.

(** [get_usize_from_codebook] (lib.rs 19-26, main.rs 41-48); [None] is the
    panic of [unwrap]. *)
Definition get_usize_from_codebook (codebook : Codebook.t) (ids : list nat)
    : option nat :=
  match ids with
  | [x] => Some x
  | _ => Codebook.get codebook ids
  end.

(** [d_ids.iter().max()] *)
Definition iter_max (l : list nat) : option nat :=
  match l with
  | [] => None
  | x :: r => Some (fold_left Nat.max r x)
  end.

(** [disabled_ids_to_set] (lib.rs 28-40, main.rs 50-62) *)
Definition disabled_ids_to_set (disabled_ids : option (list nat)) : option FastSet.t :=
  match disabled_ids with
  | None => Some (FastSet.with_capacity 0)
  | Some d_ids =>
      let! m := iter_max d_ids in
      Some (fold_left FastSet.insert d_ids (FastSet.with_capacity (m + 1)))
  end.

(** [Vec::resize] *)
Definition resize {A : Type} (v : list A) (n : nat) (x : A) : list A :=
  firstn n v ++ repeat x (n - length v).

(** [sorted_by(|(_, value), (_, value2)| value.cmp(value2))]: a stable sort
    of the map's entries by value (insertion sort). *)
Fixpoint insert_by_value (e : list nat * nat) (l : Codebook.t) : Codebook.t :=
  match l with
  | [] => [e]
  | e' :: l' => if snd e' <=? snd e then e' :: insert_by_value e l' else e :: l
  end.

Definition sorted_by_value (cb : Codebook.t) : Codebook.t :=
  fold_left (fun acc e => insert_by_value e acc) cb [].

(** The parameters of [compress]. *)
Record params := Params {
  initial_vocab_size : nat;
  max_codebook_size : nat;
  max_subtokens : nat;
  max_out_seq_length : nat;
  eot_token_id : nat
}.

(** The local variables of [compress] that live across loop iterations. *)
Record state := State {
  compressed_ids : list nat;
  codebook : Codebook.t;
  next_id : nat;
  ids_to_merge : list nat;
  i : nat
}.

Definition with_i (s : state) (n : nat) : state :=
  State (compressed_ids s) (codebook s) (next_id s) (ids_to_merge s) n.

Definition with_compressed_ids (s : state) (c : list nat) : state :=
  State c (codebook s) (next_id s) (ids_to_merge s) (i s).

(** The part of one loop iteration that handles a non-disabled id
    (lib.rs 70-88, main.rs 110-136).  The two files differ only in the way
    they push onto [compressed_ids]: [push] is [Vec::push] in lib.rs and
    [push_to_compressed_ids] in main.rs. *)
Definition merge_id (p : params) (push : list nat -> nat -> list nat)
    (s : state) (id : nat) : option state :=
  let ids_to_merge1 := ids_to_merge s ++ [id] in
  let! s1 :=
    if negb (codebook_contains (codebook s) ids_to_merge1 (initial_vocab_size p)) then
      let '(cb, nid) :=
        if next_id s <? initial_vocab_size p + max_codebook_size p
        then (Codebook.insert (codebook s) ids_to_merge1 (next_id s), next_id s + 1)
        else (codebook s, next_id s) in
      let popped := removelast ids_to_merge1 in
      let! c := get_usize_from_codebook cb popped in
      Some (State (push (compressed_ids s) c) cb nid [id] (i s))
    else Some (State (compressed_ids s) (codebook s) (next_id s) ids_to_merge1 (i s)) in
  if length (ids_to_merge s1) =? max_subtokens p then
    let! c := get_usize_from_codebook (codebook s1) (ids_to_merge s1) in
    Some (State (push (compressed_ids s1) c) (codebook s1) (next_id s1) [] (i s1))
  else Some s1.

(** The flush of the candidate phrase before a disabled id
    (lib.rs 62-65, main.rs 97-104). *)
Definition flush_candidate (push : list nat -> nat -> list nat) (s : state)
    : option state :=
  if 0 <? length (ids_to_merge s) then
    let! c := get_usize_from_codebook (codebook s) (ids_to_merge s) in
    Some (State (push (compressed_ids s) c) (codebook s) (next_id s) [] (i s))
  else Some s.

(** The end-of-input flush (lib.rs 93-102, main.rs 141-158). *)
Definition final_flush (p : params) (push : list nat -> nat -> list nat)
    (s : state) : option (list nat) :=
  let! s1 :=
    if max_subtokens p <? length (ids_to_merge s) then
      let last_id := last (ids_to_merge s) 0 in
      let! c := get_usize_from_codebook (codebook s) (removelast (ids_to_merge s)) in
      Some (State (push (compressed_ids s) c) (codebook s) (next_id s) [last_id] (i s))
    else Some s in
  if 0 <? length (ids_to_merge s1) then
    let! c := get_usize_from_codebook (codebook s1) (ids_to_merge s1) in
    Some (push (compressed_ids s1) c)
  else Some (compressed_ids s1).

(** ** [lib.rs] *)
Module Lib.

Definition push (v : list nat) (x : nat) : list nat := v ++ [x].

(** The [while] loop of lib.rs 57-91.  The disabled branch [continue]s
    without incrementing [i]. *)
Fixpoint compress_loop (fuel : nat) (ids : list nat) (p : params)
    (disabled_ids : FastSet.t) (s : state) : run_result state :=
  match fuel with
  | O => OutOfFuel
  | S fuel' =>
      if (i s <? length ids) && (i s <? max_out_seq_length p) then
        match nth_error ids (i s) with
        | None => Panicked
        | Some id =>
            if FastSet.contains disabled_ids id then
              match flush_candidate push s with
              | None => Panicked
              | Some s1 =>
                  compress_loop fuel' ids p disabled_ids
                    (with_compressed_ids s1 (push (compressed_ids s1) id))
              end
            else
              match merge_id p push s id with
              | None => Panicked
              | Some s1 => compress_loop fuel' ids p disabled_ids (with_i s1 (i s1 + 1))
              end
        end
      else Finished s
  end.

(** The serialized codebook (lib.rs 104-114). *)
Definition codebook_vec (p : params) (cb : Codebook.t) : list (list nat) :=
  resize
    (map (fun e => resize (fst e) (max_subtokens p) (eot_token_id p)) (sorted_by_value cb))
    (max_codebook_size p) (repeat (eot_token_id p) (max_subtokens p)).

(** The scan for the next boundary marker (lib.rs 116-124): the final [j]
    and [has_remaining_docs]. *)
Fixpoint scan_eot (ids : list nat) (eot_token_id : nat) (fuel j : nat) : nat * bool :=
  match fuel with
  | O => (j, false)
  | S fuel' =>
      if j <? length ids then
        if nth j ids 0 =? eot_token_id then (j, true)
        else scan_eot ids eot_token_id fuel' (j + 1)
      else (j, false)
  end.

(** lib.rs 116-130 *)
Definition remaining_ids (ids : list nat) (eot_token_id : nat) (i0 : nat)
    : option (list nat) :=
  let '(j, has_remaining_docs) := scan_eot ids eot_token_id (length ids) i0 in
  if has_remaining_docs then Some (skipn j ids) else None.

Definition init (p : params) : state := State [] Codebook.empty (initial_vocab_size p) [] 0.

(** [compress] (lib.rs 42-133) *)
Definition compress (fuel : nat) (ids : list nat) (p : params)
    (disabled_ids : FastSet.t)
    : run_result (list nat * list (list nat) * option (list nat)) :=
  match compress_loop fuel ids p disabled_ids (init p) with
  | Finished s =>
      match final_flush p push s with
      | Some out => Finished (out, codebook_vec p (codebook s), remaining_ids ids (eot_token_id p) (i s))
      | None => Panicked
      end
  | Panicked => Panicked
  | OutOfFuel => OutOfFuel
  end.

(** [py_compress] (lib.rs 135-157) *)
Definition py_compress (fuel : nat) (ids : list nat) (p : params)
    (disabled_ids : option (list nat))
    : run_result (list nat * list (list nat) * option (list nat)) :=
  match disabled_ids_to_set disabled_ids with
  | None => Panicked
  | Some set => compress fuel ids p set
  end.

End Lib.

(** ** [main.rs] *)
Module Main.

(** [push_to_compressed_ids] (main.rs 64-69) *)
Definition push_to_compressed_ids (compressed_ids : list nat) (id : nat)
    (max_out_seq_length : nat) : list nat :=
  if length compressed_ids <? max_out_seq_length then compressed_ids ++ [id]
  else compressed_ids.

Definition push (p : params) (v : list nat) (x : nat) : list nat :=
  push_to_compressed_ids v x (max_out_seq_length p).

(** The [while] loop of main.rs 92-139. *)
Fixpoint compress_loop (fuel : nat) (ids : list nat) (offset num_tokens : nat)
    (p : params) (disabled_ids : FastSet.t) (s : state) : run_result state :=
  match fuel with
  | O => OutOfFuel
  | S fuel' =>
      if (offset + i s <? num_tokens)
         && (length (compressed_ids s) <? max_out_seq_length p) then
        match nth_error ids (offset + i s) with
        | None => Panicked
        | Some id =>
            if FastSet.contains disabled_ids id then
              match flush_candidate (push p) s with
              | None => Panicked
              | Some s1 =>
                  compress_loop fuel' ids offset num_tokens p disabled_ids
                    (with_i (with_compressed_ids s1 (push p (compressed_ids s1) id))
                       (i s1 + 1))
              end
            else
              match merge_id p (push p) s id with
              | None => Panicked
              | Some s1 =>
                  compress_loop fuel' ids offset num_tokens p disabled_ids
                    (with_i s1 (i s1 + 1))
              end
        end
      else Finished s
  end.

(** The serialized, flattened codebook (main.rs 160-170). *)
Definition codebook_vec (p : params) (cb : Codebook.t) : list nat :=
  resize
    (flat_map (fun e => resize (fst e) (max_subtokens p) (eot_token_id p)) (sorted_by_value cb))
    (max_codebook_size p * max_subtokens p) (eot_token_id p).

(** The state before the loop (main.rs 82-92), including the boundary
    marker forced at the start of the window (main.rs 88-90). *)
Definition init (p : params) (first : nat) : state :=
  State (if negb (first =? eot_token_id p) then [eot_token_id p] else [])
    Codebook.empty (initial_vocab_size p) [] 0.

(** [compress] (main.rs 71-173); the third result is the number [i] of raw
    ids consumed. *)
Definition compress (fuel : nat) (ids : list nat) (offset num_tokens : nat)
    (p : params) (disabled_ids : FastSet.t)
    : run_result (list nat * list nat * nat) :=
  match nth_error ids offset with
  | None => Panicked
  | Some first =>
      match compress_loop fuel ids offset num_tokens p disabled_ids (init p first) with
      | Finished s =>
          match final_flush p (push p) s with
          | Some out => Finished (out, codebook_vec p (codebook s), i s)
          | None => Panicked
          end
      | Panicked => Panicked
      | OutOfFuel => OutOfFuel
      end
  end.

End Main.

(** ** [compress_file] (main.rs 175-258)

    The pure part of [compress_file]: the file is a list of bytes (each a
    [Z] in [0, 256)); opening, reading and writing files, the progress bar
    and [println!] are not modelled.  The result is [None] when the window
    loop returns early (main.rs 223-226, no file is written), and otherwise
    the bytes of the compressed file and of the codebook file. *)
Module File.

(** The window loop (main.rs 206-230). *)
Fixpoint compress_windows (fuel cfuel : nat) (ids : list nat) (num_tokens : nat)
    (p : params) (disabled_ids : FastSet.t) (i : nat)
    (compressed_ids codebook_vec : list nat)
    : run_result (option (list nat * list nat)) :=
  match fuel with
  | O => OutOfFuel
  | S fuel' =>
      if (i <? num_tokens) && (max_out_seq_length p <? num_tokens - i) then
        match Main.compress cfuel ids i num_tokens p disabled_ids with
        | Finished (c_ids, c_codebook, remaining_ids_offset) =>
            if negb (length c_ids =? max_out_seq_length p) then Finished None
            else compress_windows fuel' cfuel ids num_tokens p disabled_ids
                   (i + remaining_ids_offset)
                   (compressed_ids ++ c_ids) (codebook_vec ++ c_codebook)
        | Panicked => Panicked
        | OutOfFuel => OutOfFuel
        end
      else Finished (Some (compressed_ids, codebook_vec))
  end.

Local Open Scope Z_scope.

(** [u16::from_le_bytes] *)
Definition u16_from_le (b0 b1 : Z) : Z := b0 + 256 * b1.

(** [u16::to_le_bytes] *)
Definition u16_to_le (y : Z) : list Z := [y mod 256; y / 256].

(** [x as u16] for a [usize] [x] *)
Definition as_u16 (x : nat) : Z := Z.of_nat x mod 65536.

(** [i32::from_le_bytes]: the two's complement value of the 32 bits. *)
Definition i32_from_le (b0 b1 b2 b3 : Z) : Z :=
  let u := b0 + 256 * b1 + 65536 * b2 + 16777216 * b3 in
  if u <? 2147483648 then u else u - 4294967296.

(** [i32::to_le_bytes] *)
Definition i32_to_le (x : Z) : list Z :=
  let u := x mod 4294967296 in
  [u mod 256; (u / 256) mod 256; (u / 65536) mod 256; u / 16777216].

(** [x as i32] for a [usize] [x]: the low 32 bits, in two's complement. *)
Definition usize_as_i32 (x : nat) : Z :=
  let u := Z.of_nat x mod 4294967296 in
  if u <? 2147483648 then u else u - 4294967296.

(** [h as usize] for an [i32] [h]: sign extension to 64 bits. *)
Definition i32_as_usize (h : Z) : nat :=
  Z.to_nat (if h <? 0 then h + 18446744073709551616 else h).

(** [chunks_exact(2)] and [chunks_exact(4)]: a short last chunk is dropped. *)
Fixpoint chunks2 (l : list Z) : list (Z * Z) :=
  match l with
  | b0 :: b1 :: r => (b0, b1) :: chunks2 r
  | _ => []
  end.

Fixpoint chunks4 (l : list Z) : list (Z * Z * Z * Z) :=
  match l with
  | b0 :: b1 :: b2 :: b3 :: r => (b0, b1, b2, b3) :: chunks4 r
  | _ => []
  end.

(** [header[k] = v]; indexing out of range panics. *)
Fixpoint list_set (l : list Z) (k : nat) (v : Z) : option (list Z) :=
  match l, k with
  | [], _ => None
  | _ :: r, O => Some (v :: r)
  | x :: r, S k' => option_map (cons x) (list_set r k' v)
  end.

(** Reading a data file (main.rs 179-192): [read_exact] of the 256 * 4
    header bytes panics on a shorter file; the rest is read as [u16] token
    ids. *)
Definition read_input (file : list Z) : option (list Z * list nat) :=
  if (length file <? 1024)%nat then None
  else Some (map (fun '(b0, b1, b2, b3) => i32_from_le b0 b1 b2 b3) (chunks4 (firstn 1024 file)),
             map (fun '(b0, b1) => Z.to_nat (u16_from_le b0 b1)) (chunks2 (skipn 1024 file))).

(** The header of the compressed file (main.rs 236-239). *)
Definition update_header (p : params) (header : list Z)
    (compressed_ids codebook_vec : list nat) : option (list Z) :=
  let! h2 := list_set header 2 (usize_as_i32 (length compressed_ids)) in
  let! h3 := list_set h2 3 (usize_as_i32 (length codebook_vec /
                             (max_codebook_size p * max_subtokens p))) in
  let! h4 := list_set h3 4 (usize_as_i32 (max_codebook_size p)) in
  list_set h4 5 (usize_as_i32 (max_subtokens p)).

(** The bytes written (main.rs 241-257). *)
Definition ids_to_bytes (ids : list nat) : list Z :=
  flat_map (fun x => u16_to_le (as_u16 x)) ids.

Definition header_to_bytes (header : list Z) : list Z := flat_map i32_to_le header.

Definition compress_file (fuel cfuel : nat) (p : params) (file : list Z)
    : run_result (option (list Z * list Z)) :=
  match read_input file with
  | None => Panicked
  | Some (header, ids) =>
      match nth_error header 0, nth_error header 1, nth_error header 2 with
      | Some h0, Some h1, Some h2 =>
          if negb (h0 =? 20240520) then Panicked
          else if negb (h1 =? 1) then Panicked
          else
            let num_tokens := i32_as_usize h2 in
            match disabled_ids_to_set (Some [eot_token_id p]) with
            | None => Panicked
            | Some disabled_ids =>
                match compress_windows fuel cfuel ids num_tokens p disabled_ids 0 [] [] with
                | Finished (Some (compressed_ids, codebook_vec)) =>
                    (* [codebook_vec.len() / (max_codebook_size * max_subtokens)] *)
                    if (max_codebook_size p * max_subtokens p =? 0)%nat then Panicked
                    else
                      match update_header p header compressed_ids codebook_vec with
                      | Some header' =>
                          Finished (Some (header_to_bytes header' ++ ids_to_bytes compressed_ids,
                                          ids_to_bytes codebook_vec))
                      | None => Panicked
                      end
                | Finished None => Finished None
                | Panicked => Panicked
                | OutOfFuel => OutOfFuel
                end
            end
      | _, _, _ => Panicked
      end
  end.

End File.

(** ** Decoding, as the spec describes it

    Decoding is not part of the repository: the spec describes it as
    replacing every substitute id by the phrase the window's codebook
    stores for it, raw ids (below [initial_vocab_size]) standing for
    themselves. *)










(** ** Invariants of the codebook and of the candidate phrase *)

(** The codebook holds [n] entries whose values are [initial_vocab_size],
    ..., [initial_vocab_size + n - 1] in insertion order, [next_id] is the
    next of them, keys are distinct and of length at least 2. *)
Definition cb_wf (p : params) (cb : Codebook.t) (nid : nat) : Prop :=
  Codebook.values cb = seq (initial_vocab_size p) (length cb) /\
  nid = initial_vocab_size p + length cb /\
  length cb <= max_codebook_size p /\
  NoDup (Codebook.keys cb) /\
  Forall (fun k => 2 <= length k) (Codebook.keys cb).

(** The candidate phrase is empty or can be looked up. *)
Definition cand_ok (cb : Codebook.t) (cand : list nat) : Prop :=
  cand = [] \/ exists c, get_usize_from_codebook cb cand = Some c.

(** Each emitted id [c] stands for a non-empty phrase [ph] that the
    codebook maps to [c]. *)
Definition emitted (cb : Codebook.t) (em : list nat) (phs : list (list nat)) : Prop :=
  Forall2 (fun c ph => get_usize_from_codebook cb ph = Some c) em phs /\
  Forall (fun ph => ph <> []) phs.

Section CodebookFacts.

Lemma get_app (cb l : Codebook.t) k :
  Codebook.get (cb ++ l) k =
  match Codebook.get cb k with Some v => Some v | None => Codebook.get l k end.
Proof.
  induction cb as [|[k' v'] cb IH]; simpl; [reflexivity|].
  destruct (list_eq_dec Nat.eq_dec k k'); auto.
Qed.

Lemma get_In (cb : Codebook.t) k v : Codebook.get cb k = Some v -> In (k, v) cb.
Proof.
  induction cb as [|[k' v'] cb IH]; simpl; [discriminate|].
  destruct (list_eq_dec Nat.eq_dec k k') as [->|]; [injection 1 as ->|]; auto.
Qed.

Lemma get_None (cb : Codebook.t) k : ~ In k (Codebook.keys cb) -> Codebook.get cb k = None.
Proof.
  induction cb as [|[k' v'] cb IH]; simpl; [reflexivity|].
  intros Hn. destruct (list_eq_dec Nat.eq_dec k k') as [->|]; [tauto|auto].
Qed.

Lemma get_Some (cb : Codebook.t) k : In k (Codebook.keys cb) -> exists v, Codebook.get cb k = Some v.
Proof.
  induction cb as [|[k' v'] cb IH]; simpl; [tauto|].
  intros Hk. destruct (list_eq_dec Nat.eq_dec k k') as [->|]; eauto.
  destruct Hk; [congruence|auto].
Qed.

Lemma insert_absent (cb : Codebook.t) k v :
  ~ In k (Codebook.keys cb) -> Codebook.insert cb k v = cb ++ [(k, v)].
Proof.
  induction cb as [|[k' v'] cb IH]; simpl; [reflexivity|].
  intros Hn. destruct (list_eq_dec Nat.eq_dec k k') as [->|]; [tauto|].
  f_equal. auto.
Qed.

Lemma contains_key_In (cb : Codebook.t) k :
  Codebook.contains_key cb k = true <-> In k (Codebook.keys cb).
Proof.
  unfold Codebook.contains_key. split.
  - destruct (Codebook.get cb k) eqn:E; [|discriminate].
    intros _. apply get_In in E. apply (in_map fst) in E. exact E.
  - intros H. destruct (get_Some cb k H) as [v ->]. reflexivity.
Qed.

Lemma get_usize_app (cb l : Codebook.t) ph c :
  get_usize_from_codebook cb ph = Some c -> get_usize_from_codebook (cb ++ l) ph = Some c.
Proof.
  unfold get_usize_from_codebook. destruct ph as [|x [|y r]]; auto;
  rewrite get_app; intros ->; reflexivity.
Qed.

Lemma emitted_app cb l em phs : emitted cb em phs -> emitted (cb ++ l) em phs.
Proof.
  intros [H1 H2]. split; [|exact H2]. clear H2.
  induction H1; constructor; [apply get_usize_app|]; assumption.
Qed.

Lemma emitted_cons cb c ph em phs :
  get_usize_from_codebook cb ph = Some c -> ph <> [] -> emitted cb em phs ->
  emitted cb (c :: em) (ph :: phs).
Proof. intros H1 H2 [H3 H4]. split; constructor; auto. Qed.

Lemma emitted_app2 cb em1 phs1 em2 phs2 :
  emitted cb em1 phs1 -> emitted cb em2 phs2 -> emitted cb (em1 ++ em2) (phs1 ++ phs2).
Proof.
  intros [H1 H2] [H3 H4]. split; [apply Forall2_app|apply Forall_app]; auto.
Qed.

Lemma emitted_nil cb : emitted cb [] [].
Proof. split; constructor. Qed.

Lemma emitted_length cb em phs : emitted cb em phs -> length em <= length (concat phs).
Proof.
  intros [H1 H2]. induction H1; simpl; [lia|].
  inversion H2 as [|? ? Hne Hrest]; subst. rewrite length_app.
  destruct y; [congruence|simpl]. specialize (IHForall2 Hrest). lia.
Qed.

Lemma cb_wf_empty p : cb_wf p Codebook.empty (initial_vocab_size p).
Proof.
  unfold cb_wf, Codebook.empty; simpl. repeat split; auto; try lia; constructor.
Qed.

Lemma get_usize_nil_wf p cb nid : cb_wf p cb nid -> get_usize_from_codebook cb [] = None.
Proof.
  intros (_ & _ & _ & _ & Hk). simpl. apply get_None. intros Hin.
  rewrite Forall_forall in Hk. specialize (Hk _ Hin). simpl in Hk. lia.
Qed.

Lemma cb_wf_append p cb k :
  cb_wf p cb (initial_vocab_size p + length cb) ->
  initial_vocab_size p + length cb < initial_vocab_size p + max_codebook_size p ->
  ~ In k (Codebook.keys cb) -> 2 <= length k ->
  cb_wf p (cb ++ [(k, initial_vocab_size p + length cb)])
    (initial_vocab_size p + length cb + 1).
Proof.
  intros (Hv & _ & Hl & Hnd & Hk) Hlt Hn H2.
  unfold cb_wf, Codebook.values, Codebook.keys in *.
  rewrite !map_app, !length_app. simpl.
  replace (length cb + 1) with (S (length cb)) by lia.
  rewrite seq_S, Hv. repeat split; try lia.
  - apply NoDup_app; auto.
    + repeat constructor. simpl. tauto.
    + intros a Ha [<-|[]]. tauto.
  - apply Forall_app. split; auto.
Qed.


Lemma values_ge p cb nid k v :
  cb_wf p cb nid -> In (k, v) cb -> initial_vocab_size p <= v < nid.
Proof.
  intros (Hv & Hn & _ & _ & _) Hin. apply (in_map snd) in Hin. simpl in Hin.
  unfold Codebook.values in Hv. rewrite Hv in Hin. apply in_seq in Hin. lia.
Qed.



End CodebookFacts.

(** ** One step of the merger *)

Ltac split6 := split; [|split; [|split; [|split; [|split]]]].

Section MergeStep.

Variable p : params.

Lemma contains_get cb k :
  codebook_contains cb k (initial_vocab_size p) = true ->
  exists c, get_usize_from_codebook cb k = Some c.
Proof.
  destruct k as [|x [|y r]]; simpl; eauto.
  - intros H. apply contains_key_In, get_Some in H. exact H.
  - intros H. apply contains_key_In, get_Some in H. exact H.
Qed.

Lemma not_contained_absent cb nid k :
  cb_wf p cb nid -> codebook_contains cb k (initial_vocab_size p) = false ->
  ~ In k (Codebook.keys cb).
Proof.
  intros (_ & _ & _ & _ & Hk) Hc Hin. rewrite Forall_forall in Hk.
  pose proof (Hk _ Hin) as Hl.
  destruct k as [|x [|y r]]; simpl in Hl; try lia.
  simpl in Hc. apply contains_key_In in Hin. congruence.
Qed.

Lemma get_usize_cand cb l cand c :
  get_usize_from_codebook cb cand = Some c ->
  get_usize_from_codebook (cb ++ l) cand = Some c.
Proof. apply get_usize_app. Qed.

(** What one call of [merge_id] does, whatever the push. *)
Lemma merge_id_spec push s id s' :
  cb_wf p (codebook s) (next_id s) ->
  cand_ok (codebook s) (ids_to_merge s) ->
  merge_id p push s id = Some s' ->
  i s' = i s /\
  cb_wf p (codebook s') (next_id s') /\
  ((codebook s' = codebook s /\ next_id s' = next_id s) \/
   (next_id s < initial_vocab_size p + max_codebook_size p /\
    ~ In (ids_to_merge s ++ [id]) (Codebook.keys (codebook s)) /\
    codebook s' = codebook s ++ [(ids_to_merge s ++ [id], next_id s)] /\
    next_id s' = next_id s + 1)) /\
  cand_ok (codebook s') (ids_to_merge s') /\
  length (ids_to_merge s') <> max_subtokens p /\
  exists em phs,
    compressed_ids s' = fold_left push em (compressed_ids s) /\
    emitted (codebook s') em phs /\
    concat phs ++ ids_to_merge s' = ids_to_merge s ++ [id].
Proof.
  destruct s as [out cb nid cand i0]; simpl. intros Hwf Hok H.
  unfold merge_id in H; simpl in H.
  destruct (codebook_contains cb (cand ++ [id]) (initial_vocab_size p)) eqn:Hc;
    simpl in H.
  - (* the extended candidate is known *)
    destruct (contains_get _ _ Hc) as [c Hg].
    destruct (length (cand ++ [id]) =? max_subtokens p) eqn:Hl.
    + rewrite Hg in H. injection H as <-. simpl.
      apply Nat.eqb_eq in Hl. rewrite length_app in Hl. simpl in Hl.
      split6; [reflexivity|exact Hwf|left; auto|left; reflexivity|simpl; lia|].
      exists [c], [cand ++ [id]]. split; [reflexivity|split].
      * apply emitted_cons; auto using emitted_nil. destruct cand; discriminate.
      * simpl. rewrite !app_nil_r. reflexivity.
    + injection H as <-. simpl. apply Nat.eqb_neq in Hl.
      split6; [reflexivity|exact Hwf|left; auto|right; eauto|exact Hl|].
      exists [], []. split; [reflexivity|split]; auto using emitted_nil.
  - (* the extended candidate is new *)
    pose proof (not_contained_absent _ _ _ Hwf Hc) as Habs.
    rewrite removelast_last in H.
    destruct (nid <? initial_vocab_size p + max_codebook_size p) eqn:Hcap.
    + rewrite insert_absent in H by exact Habs.
      destruct cand as [|x0 cand0] eqn:Ecand.
      { exfalso. pose proof (get_usize_nil_wf _ _ _ Hwf) as Hn0.
        simpl in H, Hn0. rewrite get_app, Hn0 in H. simpl in H. discriminate. }
      rewrite <- Ecand in *.
      destruct Hok as [->|[c0 Hg0]]; [discriminate|].
      rewrite (get_usize_cand _ _ _ _ Hg0) in H.
      assert (Hwf' : cb_wf p (cb ++ [(cand ++ [id], nid)]) (nid + 1)).
      { destruct Hwf as (Hv & Hn & Hl0 & Hnd & Hk).
        subst nid. apply cb_wf_append; auto.
        - exact (conj Hv (conj eq_refl (conj Hl0 (conj Hnd Hk)))).
        - apply Nat.ltb_lt in Hcap. exact Hcap.
        - subst cand. rewrite length_app. simpl. lia. }
      apply Nat.ltb_lt in Hcap.
      cbn [ids_to_merge compressed_ids codebook next_id i] in H.
      destruct (length [id] =? max_subtokens p) eqn:Hl; simpl in H.
      * injection H as <-. simpl. apply Nat.eqb_eq in Hl. simpl in Hl.
        split6; [reflexivity|exact Hwf'|right; auto|left; reflexivity|lia|].
        exists [c0; id], [cand; [id]]. split; [reflexivity|split].
        -- apply emitted_cons; [apply get_usize_cand; exact Hg0|congruence|].
           apply emitted_cons; [reflexivity|discriminate|apply emitted_nil].
        -- simpl. rewrite !app_nil_r. reflexivity.
      * injection H as <-. simpl. apply Nat.eqb_neq in Hl.
        split6; [reflexivity|exact Hwf'|right; auto|right; exists id; reflexivity|exact Hl|].
        exists [c0], [cand]. split; [reflexivity|split].
        -- apply emitted_cons; [apply get_usize_cand; exact Hg0|congruence|].
           apply emitted_nil.
        -- simpl. rewrite app_nil_r. reflexivity.
    + destruct cand as [|x0 cand0] eqn:Ecand.
      { exfalso. rewrite (get_usize_nil_wf _ _ _ Hwf) in H. discriminate. }
      rewrite <- Ecand in *.
      destruct Hok as [->|[c0 Hg0]]; [discriminate|].
      rewrite Hg0 in H.
      cbn [ids_to_merge compressed_ids codebook next_id i] in H.
      destruct (length [id] =? max_subtokens p) eqn:Hl; simpl in H.
      * injection H as <-. simpl. apply Nat.eqb_eq in Hl. simpl in Hl.
        split6; [reflexivity|exact Hwf|left; auto|left; reflexivity|lia|].
        exists [c0; id], [cand; [id]]. split; [reflexivity|split].
        -- apply emitted_cons; [exact Hg0|congruence|].
           apply emitted_cons; [reflexivity|discriminate|apply emitted_nil].
        -- simpl. rewrite !app_nil_r. reflexivity.
      * injection H as <-. simpl. apply Nat.eqb_neq in Hl.
        split6; [reflexivity|exact Hwf|left; auto|right; exists id; reflexivity|exact Hl|].
        exists [c0], [cand]. split; [reflexivity|split].
        -- apply emitted_cons; [exact Hg0|congruence|apply emitted_nil].
        -- simpl. rewrite app_nil_r. reflexivity.
Qed.


(** [merge_id] panics only on an unknown single id after a flush. *)
Lemma merge_id_some push s id :
  cb_wf p (codebook s) (next_id s) ->
  cand_ok (codebook s) (ids_to_merge s) ->
  (ids_to_merge s = [] -> id < initial_vocab_size p) ->
  exists s', merge_id p push s id = Some s'.
Proof.
  destruct s as [out cb nid cand i0]; simpl. intros Hwf Hok Hraw.
  unfold merge_id; simpl.
  destruct (codebook_contains cb (cand ++ [id]) (initial_vocab_size p)) eqn:Hc; simpl.
  - destruct (contains_get _ _ Hc) as [c Hg].
    destruct (length (cand ++ [id]) =? max_subtokens p); [rewrite Hg|]; eauto.
  - rewrite removelast_last.
    destruct Hok as [->|[c0 Hg0]].
    { simpl in Hc. specialize (Hraw eq_refl).
      apply Nat.ltb_lt in Hraw. congruence. }
    destruct (nid <? initial_vocab_size p + max_codebook_size p);
      [rewrite insert_absent by exact (not_contained_absent _ _ _ Hwf Hc);
       rewrite (get_usize_cand _ _ _ _ Hg0)|rewrite Hg0];
      cbn [ids_to_merge compressed_ids codebook next_id i];
      destruct (length [id] =? max_subtokens p); simpl; eauto.
Qed.

Lemma flush_candidate_spec push s :
  cand_ok (codebook s) (ids_to_merge s) ->
  exists s' em phs,
    flush_candidate push s = Some s' /\
    codebook s' = codebook s /\ next_id s' = next_id s /\ i s' = i s /\
    ids_to_merge s' = [] /\
    compressed_ids s' = fold_left push em (compressed_ids s) /\
    emitted (codebook s) em phs /\ concat phs = ids_to_merge s.
Proof.
  destruct s as [out cb nid cand i0]; simpl. intros Hok. unfold flush_candidate; simpl.
  destruct Hok as [->|[c Hg]].
  - simpl. eexists _, [], []. split6; eauto using emitted_nil.
  - destruct (0 <? length cand) eqn:Hl.
    + rewrite Hg. eexists _, [c], [cand]. split6; eauto.
      split; [reflexivity|split]; [|simpl; apply app_nil_r].
      apply emitted_cons; auto using emitted_nil.
      intros ->. discriminate.
    + destruct cand; [|discriminate].
      eexists _, [], []. split6; eauto using emitted_nil.
Qed.

Lemma final_flush_spec push s out :
  cb_wf p (codebook s) (next_id s) ->
  cand_ok (codebook s) (ids_to_merge s) ->
  final_flush p push s = Some out ->
  exists em phs,
    out = fold_left push em (compressed_ids s) /\
    emitted (codebook s) em phs /\ concat phs = ids_to_merge s.
Proof.
  destruct s as [out0 cb nid cand i0]; simpl. intros Hwf Hok H.
  unfold final_flush in H; simpl in H.
  destruct (max_subtokens p <? length cand) eqn:Hlong.
  - destruct (get_usize_from_codebook cb (removelast cand)) as [c|] eqn:Hg;
      [|discriminate].
    simpl in H. injection H as <-.
    assert (Hne : removelast cand <> []).
    { intros E. rewrite E, (get_usize_nil_wf _ _ _ Hwf) in Hg. discriminate. }
    assert (Hcne : cand <> []) by (intros ->; simpl in Hne; congruence).
    exists [c; last cand 0], [removelast cand; [last cand 0]].
    split; [reflexivity|split].
    + apply emitted_cons; auto.
      apply emitted_cons; [reflexivity|discriminate|apply emitted_nil].
    + simpl. rewrite ?app_nil_r. symmetry. apply app_removelast_last. exact Hcne.
  - simpl in H. destruct (0 <? length cand) eqn:Hl.
    + destruct Hok as [->|[c Hg]]; [discriminate|].
      rewrite Hg in H. injection H as <-.
      exists [c], [cand]. split; [reflexivity|split].
      * apply emitted_cons; auto using emitted_nil. intros ->. discriminate.
      * simpl. apply app_nil_r.
    + injection H as <-. destruct cand; [|discriminate].
      exists [], []. split; [reflexivity|split]; auto using emitted_nil.
Qed.

Lemma final_flush_some push s :
  cand_ok (codebook s) (ids_to_merge s) ->
  length (ids_to_merge s) <= max_subtokens p ->
  exists out, final_flush p push s = Some out.
Proof.
  destruct s as [out0 cb nid cand i0]. cbn [ids_to_merge codebook]. intros Hok Hl.
  unfold final_flush; cbn [ids_to_merge codebook compressed_ids next_id i].
  destruct (Nat.ltb_spec (max_subtokens p) (length cand)); [lia|].
  cbn [ids_to_merge codebook compressed_ids next_id i].
  destruct Hok as [->|[c Hg]]; [simpl; eauto|].
  destruct (0 <? length cand); [rewrite Hg|]; eauto.
Qed.

End MergeStep.

Lemma firstn_snoc {A : Type} (l : list A) k x :
  nth_error l k = Some x -> firstn (S k) l = firstn k l ++ [x].
Proof.
  revert k. induction l as [|a l IH]; intros [|k]; simpl; try discriminate.
  - injection 1 as ->. reflexivity.
  - intros H. change (a :: firstn (S k) l = a :: (firstn k l ++ [x])).
    rewrite (IH k H). reflexivity.
Qed.

Lemma fold_left_lib_push em out : fold_left Lib.push em out = out ++ em.
Proof.
  revert out. induction em as [|c em IH]; intros out; simpl.
  - symmetry. apply app_nil_r.
  - rewrite IH. unfold Lib.push. rewrite <- app_assoc. reflexivity.
Qed.

Lemma flush_candidate_empty push s :
  ids_to_merge s = [] -> flush_candidate push s = Some s.
Proof. unfold flush_candidate. intros ->. reflexivity. Qed.

(** ** The loop of [lib.rs] *)
Section LibLoop.

Variables (p : params) (ids : list nat) (disabled_ids : FastSet.t).

(** The loop invariant of lib.rs: every emitted id stands for a phrase,
    and the phrases followed by the candidate are the consumed prefix. *)
Definition lib_inv (s : state) : Prop :=
  cb_wf p (codebook s) (next_id s) /\
  cand_ok (codebook s) (ids_to_merge s) /\
  i s <= length ids /\ i s <= max_out_seq_length p /\
  (exists phs, emitted (codebook s) (compressed_ids s) phs /\
     concat phs ++ ids_to_merge s = firstn (i s) ids) /\
  (0 < max_subtokens p ->
     length (ids_to_merge s) < max_subtokens p /\
     Forall (fun k => length k <= max_subtokens p) (Codebook.keys (codebook s))).

Lemma lib_inv_init : lib_inv (Lib.init p).
Proof.
  unfold lib_inv, Lib.init; simpl. split6.
  - apply cb_wf_empty.
  - left; reflexivity.
  - lia.
  - lia.
  - exists []. split; [apply emitted_nil|reflexivity].
  - intros H. split; [exact H|constructor].
Qed.

(** On a disabled id, the loop of lib.rs does not advance [i]: with an
    empty candidate it stays in the same state forever. *)
Lemma lib_loop_diverges fuel s d :
  ids_to_merge s = [] ->
  i s < length ids -> i s < max_out_seq_length p ->
  nth_error ids (i s) = Some d -> FastSet.contains disabled_ids d = true ->
  Lib.compress_loop fuel ids p disabled_ids s = OutOfFuel.
Proof.
  revert s. induction fuel as [|fuel IH]; intros s Hc Hl Hm Hn Hd; [reflexivity|].
  simpl. apply Nat.ltb_lt in Hl, Hm. rewrite Hl, Hm. simpl. rewrite Hn, Hd.
  rewrite (flush_candidate_empty _ _ Hc).
  apply IH; simpl; auto; apply Nat.ltb_lt; assumption.
Qed.

(** Reaching a disabled id, the loop of lib.rs never finishes. *)
Lemma lib_loop_stuck fuel s d s' :
  i s < length ids -> i s < max_out_seq_length p ->
  nth_error ids (i s) = Some d -> FastSet.contains disabled_ids d = true ->
  Lib.compress_loop fuel ids p disabled_ids s <> Finished s'.
Proof.
  revert s. induction fuel as [|fuel IH]; intros s Hl Hm Hn Hd; [discriminate|].
  simpl. apply Nat.ltb_lt in Hl, Hm. rewrite Hl, Hm. simpl. rewrite Hn, Hd.
  unfold flush_candidate.
  destruct (0 <? length (ids_to_merge s)).
  - destruct (get_usize_from_codebook (codebook s) (ids_to_merge s)); [|discriminate].
    apply IH; simpl; auto; apply Nat.ltb_lt; assumption.
  - apply IH; simpl; auto; apply Nat.ltb_lt; assumption.
Qed.

Lemma lib_loop_inv fuel s s' :
  lib_inv s ->
  Lib.compress_loop fuel ids p disabled_ids s = Finished s' ->
  lib_inv s' /\ ~ (i s' < length ids /\ i s' < max_out_seq_length p) /\
  exists l, codebook s' = codebook s ++ l.
Proof.
  revert s. induction fuel as [|fuel IH]; intros s Hinv H; [discriminate|].
  simpl in H.
  destruct (Nat.ltb_spec (i s) (length ids)) as [Hl|Hl];
  destruct (Nat.ltb_spec (i s) (max_out_seq_length p)) as [Hm|Hm]; simpl in H;
    try (injection H as <-; split;
         [exact Hinv|split; [lia|exists []; symmetry; apply app_nil_r]]).
  destruct (nth_error ids (i s)) as [id|] eqn:Hn; [|discriminate].
  destruct (FastSet.contains disabled_ids id) eqn:Hd.
  { exfalso. refine (lib_loop_stuck (S fuel) s id s' _ _ Hn Hd _); auto.
    simpl. apply Nat.ltb_lt in Hl, Hm. rewrite Hl, Hm. simpl. rewrite Hn, Hd.
    exact H. }
  destruct (merge_id p Lib.push s id) as [s1|] eqn:Hs1; [|discriminate].
  destruct Hinv as (Hwf & Hok & Hil & Him & (phs0 & Hem0 & Hcat0) & Hms).
  destruct (merge_id_spec p Lib.push s id s1 Hwf Hok Hs1)
    as (Hi1 & Hwf1 & Hcb1 & Hok1 & Hlen1 & em & phs & Hout1 & Hem & Hcat).
  assert (Hext : exists l, codebook s1 = codebook s ++ l).
  { destruct Hcb1 as [[-> _]|(_ & _ & -> & _)]; eauto.
    exists []. symmetry. apply app_nil_r. }
  assert (Hinv1 : lib_inv (with_i s1 (i s1 + 1))).
  { unfold lib_inv, with_i; simpl. split6; auto; try lia.
    - exists (phs0 ++ phs). split.
      + rewrite Hout1, fold_left_lib_push. apply emitted_app2; auto.
        destruct Hext as [l ->]. apply emitted_app; exact Hem0.
      + rewrite concat_app, <- app_assoc, Hcat, app_assoc, Hcat0, Hi1.
        replace (i s + 1) with (S (i s)) by lia.
        symmetry. apply firstn_snoc. exact Hn.
    - intros Hpos. destruct (Hms Hpos) as [Hc Hk].
      assert (Hlc : length (ids_to_merge s1) <= length (ids_to_merge s) + 1).
      { apply (f_equal (@length nat)) in Hcat. rewrite !length_app in Hcat.
        simpl in Hcat. lia. }
      split; [lia|].
      destruct Hcb1 as [[-> _]|(_ & _ & -> & _)]; [exact Hk|].
      unfold Codebook.keys. rewrite map_app. apply Forall_app. split; [exact Hk|].
      constructor; [|constructor]. simpl. rewrite length_app. simpl. lia. }
  destruct (IH _ Hinv1 H) as (Hinv' & Hstop & l' & Hl').
  split; [exact Hinv'|split; [exact Hstop|]].
  destruct Hext as [l Hl1]. exists (l ++ l'). rewrite Hl'. simpl. rewrite Hl1, app_assoc.
  reflexivity.
Qed.

End LibLoop.

(** ** The loop of [main.rs] *)

Definition no_disabled (disabled_ids : FastSet.t) (l : list nat) : Prop :=
  Forall (fun x => FastSet.contains disabled_ids x = false) l.

(** A segment of the consumed input that one emitted id stands for: a
    disabled id on its own, or a run free of disabled ids. *)
Definition segment_ok (disabled_ids : FastSet.t) (ph : list nat) : Prop :=
  (exists d, ph = [d] /\ FastSet.contains disabled_ids d = true) \/
  no_disabled disabled_ids ph.

Lemma fold_left_main_push p em v :
  fold_left (Main.push p) em v = v ++ firstn (max_out_seq_length p - length v) em.
Proof.
  revert v. induction em as [|c em IH]; intros v; simpl.
  - rewrite firstn_nil. symmetry. apply app_nil_r.
  - rewrite IH. unfold Main.push, Main.push_to_compressed_ids.
    destruct (Nat.ltb_spec (length v) (max_out_seq_length p)) as [Hlt|Hge].
    + rewrite length_app. simpl.
      replace (max_out_seq_length p - length v) with
        (S (max_out_seq_length p - (length v + 1))) by lia.
      simpl. rewrite <- app_assoc. reflexivity.
    + replace (max_out_seq_length p - length v) with 0 by lia. reflexivity.
Qed.

Lemma segments_of_run disabled_ids phs :
  no_disabled disabled_ids (concat phs) -> Forall (segment_ok disabled_ids) phs.
Proof.
  unfold no_disabled. rewrite Forall_concat. intros H.
  eapply Forall_impl; [|exact H]. intros ph Hph. right. exact Hph.
Qed.

Section MainLoop.

Variables (p : params) (ids : list nat) (offset num_tokens : nat)
  (disabled_ids : FastSet.t) (pre : list nat).

(** The loop invariant of main.rs, relative to the output [pre] that the
    loop starts from: the output is [pre] followed by the emitted ids that
    fit under the cap, every emitted id stands for a segment, and the
    segments followed by the candidate are the consumed ids. *)
Definition main_inv (s : state) : Prop :=
  cb_wf p (codebook s) (next_id s) /\
  cand_ok (codebook s) (ids_to_merge s) /\
  no_disabled disabled_ids (ids_to_merge s) /\
  Forall (no_disabled disabled_ids) (Codebook.keys (codebook s)) /\
  (exists em phs, compressed_ids s = fold_left (Main.push p) em pre /\
     emitted (codebook s) em phs /\ Forall (segment_ok disabled_ids) phs /\
     concat phs ++ ids_to_merge s = firstn (i s) (skipn offset ids)) /\
  (0 < max_subtokens p ->
     length (ids_to_merge s) < max_subtokens p /\
     Forall (fun k => length k <= max_subtokens p) (Codebook.keys (codebook s))).

Lemma main_inv_init first :
  pre = compressed_ids (Main.init p first) -> main_inv (Main.init p first).
Proof.
  intros Hpre. unfold main_inv, Main.init; simpl. split6.
  - apply cb_wf_empty.
  - left; reflexivity.
  - constructor.
  - constructor.
  - exists [], []. split; [simpl; rewrite Hpre; reflexivity|].
    split; [apply emitted_nil|split; constructor].
  - intros H. split; [exact H|constructor].
Qed.

Lemma main_loop_inv fuel s s' :
  main_inv s ->
  Main.compress_loop fuel ids offset num_tokens p disabled_ids s = Finished s' ->
  main_inv s' /\
  ~ (offset + i s' < num_tokens /\ length (compressed_ids s') < max_out_seq_length p) /\
  (exists l, codebook s' = codebook s ++ l) /\
  (exists l, compressed_ids s' = compressed_ids s ++ l).
Proof.
  revert s. induction fuel as [|fuel IH]; intros s Hinv H; [discriminate|].
  simpl in H.
  destruct (Nat.ltb_spec (offset + i s) num_tokens) as [Hl|Hl];
  destruct (Nat.ltb_spec (length (compressed_ids s)) (max_out_seq_length p)) as [Hm|Hm];
    simpl in H;
    try (injection H as <-; split; [exact Hinv|split; [lia|]];
         split; exists []; symmetry; apply app_nil_r).
  destruct (nth_error ids (offset + i s)) as [id|] eqn:Hn; [|discriminate].
  assert (Hsnoc : firstn (S (i s)) (skipn offset ids) = firstn (i s) (skipn offset ids) ++ [id]).
  { apply firstn_snoc. rewrite nth_error_skipn. exact Hn. }
  destruct Hinv as (Hwf & Hok & Hnd & Hknd & (em0 & phs0 & Hout0 & Hem0 & Hseg0 & Hcat0) & Hms).
  destruct (FastSet.contains disabled_ids id) eqn:Hd.
  - (* a disabled id: flush, then push it *)
    destruct (flush_candidate_spec (Main.push p) s Hok)
      as (s1 & em1 & phs1 & Hs1 & Hcb1 & Hnid1 & Hi1 & Hc1 & Hout1 & Hem1 & Hcat1).
    rewrite Hs1 in H.
    set (s2 := with_i (with_compressed_ids s1 (Main.push p (compressed_ids s1) id)) (i s1 + 1)) in H.
    assert (Hinv2 : main_inv s2).
    { unfold main_inv, s2, with_i, with_compressed_ids; simpl.
      rewrite Hcb1, Hnid1, Hc1. split6; auto.
      - left; reflexivity.
      - constructor.
      - exists (em0 ++ em1 ++ [id]), (phs0 ++ phs1 ++ [[id]]).
        split; [|split; [|split]].
        + rewrite !fold_left_app, <- Hout0, <- Hout1. reflexivity.
        + apply emitted_app2; [exact Hem0|]. apply emitted_app2; [exact Hem1|].
          apply emitted_cons; [reflexivity|discriminate|apply emitted_nil].
        + apply Forall_app; split; [exact Hseg0|]. apply Forall_app; split.
          * apply segments_of_run. rewrite Hcat1. exact Hnd.
          * constructor; [left; exists id; auto|constructor].
        + rewrite !concat_app, Hcat1. simpl. rewrite Hi1.
          replace (i s + 1) with (S (i s)) by lia. rewrite Hsnoc, <- Hcat0.
          rewrite !app_nil_r, <- !app_assoc. reflexivity.
      - intros Hpos. split; [simpl; lia|]. apply (Hms Hpos). }
    destruct (IH _ Hinv2 H) as (Hinv' & Hstop & (l1 & Hl1) & (l2 & Hl2)).
    split; [exact Hinv'|split; [exact Hstop|split]].
    + exists l1. rewrite Hl1. unfold s2; simpl. rewrite Hcb1. reflexivity.
    + rewrite Hl2. unfold s2; simpl. rewrite Hout1.
      unfold Main.push at 1. rewrite !fold_left_main_push.
      unfold Main.push_to_compressed_ids.
      destruct (_ <? _); eexists; rewrite <- ?app_assoc; reflexivity.
  - (* a mergeable id *)
    destruct (merge_id p (Main.push p) s id) as [s1|] eqn:Hs1; [|discriminate].
    destruct (merge_id_spec p (Main.push p) s id s1 Hwf Hok Hs1)
      as (Hi1 & Hwf1 & Hcb1 & Hok1 & Hlen1 & em & phs & Hout1 & Hem & Hcat).
    assert (Hext : exists l, codebook s1 = codebook s ++ l).
    { destruct Hcb1 as [[-> _]|(_ & _ & -> & _)]; eauto.
      exists []. symmetry. apply app_nil_r. }
    assert (Hrun : no_disabled disabled_ids (concat phs ++ ids_to_merge s1)).
    { rewrite Hcat. apply Forall_app. split; [exact Hnd|constructor; auto]. }
    unfold no_disabled in Hrun. rewrite Forall_app in Hrun.
    assert (Hinv1 : main_inv (with_i s1 (i s1 + 1))).
    { unfold main_inv, with_i; simpl. split6; auto.
      - apply Hrun.
      - destruct Hcb1 as [[-> _]|(_ & Habs & -> & _)]; [exact Hknd|].
        unfold Codebook.keys. rewrite map_app. apply Forall_app. split; [exact Hknd|].
        constructor; [|constructor]. simpl. apply Forall_app.
        split; [exact Hnd|constructor; auto].
      - exists (em0 ++ em), (phs0 ++ phs). split; [|split; [|split]].
        + rewrite fold_left_app, <- Hout0. exact Hout1.
        + apply emitted_app2; auto.
          destruct Hext as [l ->]. apply emitted_app; exact Hem0.
        + apply Forall_app. split; [exact Hseg0|]. apply segments_of_run, Hrun.
        + rewrite concat_app, <- app_assoc, Hcat, app_assoc, Hcat0, Hi1.
          replace (i s + 1) with (S (i s)) by lia. symmetry. exact Hsnoc.
      - intros Hpos. destruct (Hms Hpos) as [Hc Hk].
        assert (Hlc : length (ids_to_merge s1) <= length (ids_to_merge s) + 1).
        { apply (f_equal (@length nat)) in Hcat. rewrite !length_app in Hcat.
          simpl in Hcat. lia. }
        split; [lia|].
        destruct Hcb1 as [[-> _]|(_ & _ & -> & _)]; [exact Hk|].
        unfold Codebook.keys. rewrite map_app. apply Forall_app. split; [exact Hk|].
        constructor; [|constructor]. simpl. rewrite length_app. simpl. lia. }
    destruct (IH _ Hinv1 H) as (Hinv' & Hstop & (l1 & Hl1) & (l2 & Hl2)).
    split; [exact Hinv'|split; [exact Hstop|split]].
    + destruct Hext as [l Hl0]. exists (l ++ l1). rewrite Hl1. simpl. rewrite Hl0, app_assoc.
      reflexivity.
    + rewrite Hl2. simpl. rewrite Hout1, fold_left_main_push, <- app_assoc. eauto.
Qed.

End MainLoop.

(** ** Whole runs *)
Section Runs.

Lemma lib_run fuel ids p disabled_ids s out :
  Lib.compress_loop fuel ids p disabled_ids (Lib.init p) = Finished s ->
  final_flush p Lib.push s = Some out ->
  lib_inv p ids s /\ i s = Nat.min (length ids) (max_out_seq_length p) /\
  exists phs, emitted (codebook s) out phs /\ concat phs = firstn (i s) ids.
Proof.
  intros Hl Hf.
  destruct (lib_loop_inv p ids disabled_ids fuel _ _ (lib_inv_init p ids) Hl)
    as (Hinv & Hstop & _).
  split; [exact Hinv|].
  destruct Hinv as (Hwf & Hok & Hil & Him & (phs0 & Hem0 & Hcat0) & _).
  split; [lia|].
  destruct (final_flush_spec p Lib.push s out Hwf Hok Hf) as (em & phs & -> & Hem & Hcat).
  exists (phs0 ++ phs). split.
  - rewrite fold_left_lib_push. apply emitted_app2; auto.
  - rewrite concat_app, Hcat. exact Hcat0.
Qed.

Lemma main_run fuel ids offset num_tokens p disabled_ids first s out :
  Main.compress_loop fuel ids offset num_tokens p disabled_ids (Main.init p first) = Finished s ->
  final_flush p (Main.push p) s = Some out ->
  let pre := compressed_ids (Main.init p first) in
  main_inv p ids offset disabled_ids pre s /\
  ~ (offset + i s < num_tokens /\ length (compressed_ids s) < max_out_seq_length p) /\
  (exists l, out = compressed_ids s ++ l) /\
  exists em phs, out = fold_left (Main.push p) em pre /\
    emitted (codebook s) em phs /\ Forall (segment_ok disabled_ids) phs /\
    concat phs = firstn (i s) (skipn offset ids).
Proof.
  intros Hl Hf pre.
  destruct (main_loop_inv p ids offset num_tokens disabled_ids pre fuel _ _
              (main_inv_init p ids offset disabled_ids pre first eq_refl) Hl)
    as (Hinv & Hstop & _ & _).
  split; [exact Hinv|split; [exact Hstop|]].
  destruct Hinv as (Hwf & Hok & Hnd & _ & (em0 & phs0 & Hout0 & Hem0 & Hseg0 & Hcat0) & _).
  destruct (final_flush_spec p (Main.push p) s out Hwf Hok Hf) as (em & phs & -> & Hem & Hcat).
  split; [rewrite fold_left_main_push; eauto|].
  exists (em0 ++ em), (phs0 ++ phs). split; [|split; [|split]].
  - rewrite fold_left_app, <- Hout0. reflexivity.
  - apply emitted_app2; auto.
  - apply Forall_app. split; [exact Hseg0|]. apply segments_of_run. rewrite Hcat. exact Hnd.
  - rewrite concat_app, Hcat. exact Hcat0.
Qed.


End Runs.

(** ** Serialization *)

(** A phrase right-padded with the boundary marker to [max_subtokens]. *)
Definition pad_phrase (p : params) (k : list nat) : list nat :=
  k ++ repeat (eot_token_id p) (max_subtokens p - length k).

Lemma resize_le {A : Type} (v : list A) n x :
  length v <= n -> resize v n x = v ++ repeat x (n - length v).
Proof. intros H. unfold resize. rewrite firstn_all2 by exact H. reflexivity. Qed.

Lemma insert_by_value_last e (l : Codebook.t) :
  Forall (fun e' => snd e' <= snd e) l -> insert_by_value e l = l ++ [e].
Proof.
  induction l as [|e' l IH]; simpl; [reflexivity|].
  intros H. inversion H as [|? ? He' Hl]; subst.
  apply Nat.leb_le in He'. rewrite He'. f_equal. auto.
Qed.

(** Entries inserted with increasing values are already sorted by value. *)
Lemma sorted_by_value_seq a (cb : Codebook.t) :
  Codebook.values cb = seq a (length cb) -> sorted_by_value cb = cb.
Proof.
  revert a. induction cb as [|e l IH] using rev_ind; intros a Hv; [reflexivity|].
  unfold Codebook.values in Hv. rewrite map_app, length_app in Hv. simpl in Hv.
  replace (length l + 1) with (S (length l)) in Hv by lia.
  rewrite seq_S in Hv. apply app_inj_tail in Hv as [Hv He].
  unfold sorted_by_value. rewrite fold_left_app. simpl.
  change (fold_left (fun acc e => insert_by_value e acc) l []) with (sorted_by_value l).
  rewrite (IH a Hv). apply insert_by_value_last.
  apply Forall_forall. intros e' Hin. apply (in_map snd) in Hin.
  unfold Codebook.values in Hv. rewrite Hv in Hin. apply in_seq in Hin. lia.
Qed.

Lemma concat_repeat_repeat {A : Type} (x : A) m n :
  concat (repeat (repeat x m) n) = repeat x (n * m).
Proof.
  induction n as [|n IH]; simpl; [reflexivity|]. rewrite IH, repeat_app. reflexivity.
Qed.

Lemma codebook_vec_shape p cb :
  Codebook.values cb = seq (initial_vocab_size p) (length cb) ->
  length cb <= max_codebook_size p ->
  Forall (fun k => length k <= max_subtokens p) (Codebook.keys cb) ->
  Lib.codebook_vec p cb =
    map (pad_phrase p) (Codebook.keys cb) ++
    repeat (repeat (eot_token_id p) (max_subtokens p)) (max_codebook_size p - length cb) /\
  Main.codebook_vec p cb = concat (Lib.codebook_vec p cb).
Proof.
  intros Hv Hl Hk.
  assert (Hrows : map (fun e => resize (fst e) (max_subtokens p) (eot_token_id p)) cb =
                  map (pad_phrase p) (Codebook.keys cb)).
  { unfold Codebook.keys. rewrite map_map. apply map_ext_in. intros [k v] Hin.
    simpl. apply resize_le. rewrite Forall_forall in Hk. apply Hk.
    apply (in_map fst) in Hin. exact Hin. }
  assert (Hlen : forall r, In r (map (pad_phrase p) (Codebook.keys cb)) ->
                   length r = max_subtokens p).
  { intros r Hr. apply in_map_iff in Hr as (k & <- & Hin).
    rewrite Forall_forall in Hk. specialize (Hk k Hin).
    unfold pad_phrase. rewrite length_app, repeat_length. lia. }
  unfold Lib.codebook_vec, Main.codebook_vec.
  rewrite (sorted_by_value_seq _ _ Hv), flat_map_concat_map, Hrows.
  rewrite resize_le by (rewrite length_map; unfold Codebook.keys; rewrite length_map; lia).
  rewrite length_map. unfold Codebook.keys at 2. rewrite length_map.
  split; [reflexivity|].
  rewrite concat_app, concat_repeat_repeat.
  assert (Hcl : length (concat (map (pad_phrase p) (Codebook.keys cb))) =
                length cb * max_subtokens p).
  { clear -Hk. unfold Codebook.keys. induction cb as [|[k v] cb IH]; simpl; [reflexivity|].
    inversion Hk as [|? ? Hk0 Hk1]; subst. rewrite length_app, IH by exact Hk1.
    unfold pad_phrase. rewrite length_app, repeat_length. simpl in Hk0. lia. }
  rewrite resize_le by (rewrite Hcl; apply Nat.mul_le_mono_r; exact Hl).
  rewrite Hcl, <- Nat.mul_sub_distr_r. unfold Codebook.keys. rewrite length_map. reflexivity.
Qed.

(** ** The scan for the leftover slice *)
Lemma scan_eot_spec ids eot fuel j :
  length ids <= j + fuel ->
  let '(j', has) := Lib.scan_eot ids eot fuel j in
  if has then
    j <= j' < length ids /\ nth_error ids j' = Some eot /\
    (forall k, j <= k < j' -> nth_error ids k <> Some eot)
  else forall k, j <= k < length ids -> nth_error ids k <> Some eot.
Proof.
  revert j. induction fuel as [|fuel IH]; intros j Hf; simpl.
  - intros k Hk. lia.
  - destruct (Nat.ltb_spec j (length ids)) as [Hj|Hj].
    + destruct (Nat.eqb_spec (nth j ids 0) eot) as [He|He].
      * split; [lia|split]. rewrite (nth_error_nth' ids 0 Hj), He. reflexivity.
        intros k Hk. lia.
      * specialize (IH (j + 1) ltac:(lia)).
        destruct (Lib.scan_eot ids eot fuel (j + 1)) as [j' [|]].
        -- destruct IH as (Hr & Hn & Hb). split; [lia|split; [exact Hn|]].
           intros k Hk. destruct (Nat.eq_dec k j) as [->|Hne].
           ++ rewrite (nth_error_nth' ids 0 Hj). congruence.
           ++ apply Hb. lia.
        -- intros k Hk. destruct (Nat.eq_dec k j) as [->|Hne].
           ++ rewrite (nth_error_nth' ids 0 Hj). congruence.
           ++ apply IH. lia.
    + intros k Hk. lia.
Qed.

(** ** Absence of failing lookups *)
Section Safety.

Variable p : params.

(** The state facts that keep every lookup defined. *)
Definition safe (s : state) : Prop :=
  cb_wf p (codebook s) (next_id s) /\
  cand_ok (codebook s) (ids_to_merge s) /\
  length (ids_to_merge s) < max_subtokens p.

Lemma merge_id_safe push s id s1 :
  safe s -> merge_id p push s id = Some s1 -> safe s1.
Proof.
  intros (Hwf & Hok & Hlt) H.
  destruct (merge_id_spec p push s id s1 Hwf Hok H)
    as (_ & Hwf1 & _ & Hok1 & Hne & em & phs & _ & _ & Hcat).
  apply (f_equal (@length nat)) in Hcat. rewrite !length_app in Hcat. simpl in Hcat.
  split; [exact Hwf1|split; [exact Hok1|lia]].
Qed.

Lemma flush_candidate_safe push s :
  safe s -> exists s1, flush_candidate push s = Some s1 /\ safe s1 /\ i s1 = i s.
Proof.
  intros (Hwf & Hok & Hlt).
  destruct (flush_candidate_spec push s Hok)
    as (s1 & em & phs & Hf & Hcb & Hnid & Hi & Hc & _).
  exists s1. split; [exact Hf|split; [|exact Hi]].
  split; [rewrite Hcb, Hnid; exact Hwf|]. rewrite Hc. split; [left; reflexivity|simpl; lia].
Qed.

Lemma safe_init_lib : 0 < max_subtokens p -> safe (Lib.init p).
Proof.
  intros H. split; [apply cb_wf_empty|split; [left; reflexivity|exact H]].
Qed.

Lemma safe_init_main first : 0 < max_subtokens p -> safe (Main.init p first).
Proof.
  intros H. split; [apply cb_wf_empty|split; [left; reflexivity|exact H]].
Qed.

Lemma safe_final_flush push s : safe s -> exists out, final_flush p push s = Some out.
Proof.
  intros (_ & Hok & Hlt). apply final_flush_some; [exact Hok|lia].
Qed.

Variables (ids : list nat) (disabled_ids : FastSet.t).

(** Every id outside the disabled set is a raw id. *)
Definition raw_outside_disabled : Prop :=
  forall id, In id ids -> FastSet.contains disabled_ids id = false ->
             id < initial_vocab_size p.

Hypothesis Hraw : raw_outside_disabled.

Lemma lib_loop_safe fuel s :
  safe s ->
  match Lib.compress_loop fuel ids p disabled_ids s with
  | Finished s' => safe s'
  | Panicked => False
  | OutOfFuel => True
  end.
Proof.
  revert s. induction fuel as [|fuel IH]; intros s Hs; simpl; [exact I|].
  destruct (Nat.ltb_spec (i s) (length ids)) as [Hl|Hl];
  destruct (Nat.ltb_spec (i s) (max_out_seq_length p)) as [Hm|Hm]; simpl; try exact Hs.
  destruct (nth_error ids (i s)) as [id|] eqn:Hn.
  2:{ apply nth_error_None in Hn. lia. }
  destruct (FastSet.contains disabled_ids id) eqn:Hd.
  - destruct (flush_candidate_safe Lib.push s Hs) as (s1 & -> & Hs1 & _).
    apply IH. destruct Hs1 as (? & ? & ?). split; [|split]; assumption.
  - destruct Hs as (Hwf & Hok & Hlt).
    destruct (merge_id_some p Lib.push s id Hwf Hok) as [s1 Hs1].
    { intros _. apply Hraw; [apply nth_error_In with (i s); exact Hn|exact Hd]. }
    rewrite Hs1. apply IH.
    destruct (merge_id_safe Lib.push s id s1 (conj Hwf (conj Hok Hlt)) Hs1) as (? & ? & ?).
    split; [|split]; assumption.
Qed.

Variables (offset num_tokens : nat).

Hypothesis Hnum : num_tokens <= length ids.

Lemma main_loop_safe fuel s :
  safe s ->
  match Main.compress_loop fuel ids offset num_tokens p disabled_ids s with
  | Finished s' => safe s'
  | Panicked => False
  | OutOfFuel => True
  end.
Proof.
  revert s. induction fuel as [|fuel IH]; intros s Hs; simpl; [exact I|].
  destruct (Nat.ltb_spec (offset + i s) num_tokens) as [Hl|Hl];
  destruct (Nat.ltb_spec (length (compressed_ids s)) (max_out_seq_length p)) as [Hm|Hm];
    simpl; try exact Hs.
  destruct (nth_error ids (offset + i s)) as [id|] eqn:Hn.
  2:{ apply nth_error_None in Hn. lia. }
  destruct (FastSet.contains disabled_ids id) eqn:Hd.
  - destruct (flush_candidate_safe (Main.push p) s Hs) as (s1 & -> & Hs1 & _).
    apply IH. destruct Hs1 as (? & ? & ?). split; [|split]; assumption.
  - destruct Hs as (Hwf & Hok & Hlt).
    destruct (merge_id_some p (Main.push p) s id Hwf Hok) as [s1 Hs1].
    { intros _. apply Hraw; [apply nth_error_In with (offset + i s); exact Hn|exact Hd]. }
    rewrite Hs1. apply IH.
    destruct (merge_id_safe (Main.push p) s id s1 (conj Hwf (conj Hok Hlt)) Hs1)
      as (? & ? & ?).
    split; [|split]; assumption.
Qed.

End Safety.

(** ** Decoding of whole outputs *)

Lemma Forall_firstn' {A : Type} (P : A -> Prop) k l : Forall P l -> Forall P (firstn k l).
Proof.
  revert k. induction l as [|a l IH]; intros [|k] H; simpl; auto.
  inversion H; subst. constructor; auto.
Qed.

Lemma Forall_skipn' {A : Type} (P : A -> Prop) k l : Forall P l -> Forall P (skipn k l).
Proof.
  revert k. induction l as [|a l IH]; intros [|k] H; simpl; auto.
  inversion H; subst. auto.
Qed.





Lemma emitted_segments cb disabled_ids em phs :
  emitted cb em phs -> Forall (segment_ok disabled_ids) phs ->
  Forall2 (fun c ph => (ph = [c] /\ FastSet.contains disabled_ids c = true) \/
                       (no_disabled disabled_ids ph /\ ph <> [] /\
                        get_usize_from_codebook cb ph = Some c)) em phs.
Proof.
  intros [H1 H2]. induction H1 as [|c ph em phs Hg H1 IH]; intros Hs; constructor.
  - inversion Hs as [|? ? [(d & -> & Hd)|Hnd] _]; subst.
    + simpl in Hg. injection Hg as <-. left. split; [reflexivity|exact Hd].
    + inversion H2; subst. right. auto.
  - inversion H2; inversion Hs; subst. auto.
Qed.

Lemma main_init_length p first : length (compressed_ids (Main.init p first)) <= 1.
Proof. unfold Main.init; simpl. destruct (negb _); simpl; lia. Qed.

Lemma main_init_eot p first :
  first <> eot_token_id p -> compressed_ids (Main.init p first) = [eot_token_id p].
Proof.
  intros H. unfold Main.init; simpl. apply Nat.eqb_neq in H. rewrite H. reflexivity.
Qed.

Lemma main_loop_capped fuel ids offset num_tokens p disabled_ids s :
  max_out_seq_length p <= length (compressed_ids s) ->
  Main.compress_loop (S fuel) ids offset num_tokens p disabled_ids s = Finished s.
Proof.
  intros H. simpl. apply Nat.ltb_ge in H. rewrite H, andb_false_r. reflexivity.
Qed.

(** A window of main.rs that starts on the boundary marker emits it first
    when the boundary marker is disabled. *)
Lemma main_first_boundary fuel ids offset num_tokens p s :
  nth_error ids offset = Some (eot_token_id p) ->
  offset < num_tokens -> 0 < max_out_seq_length p ->
  Main.compress_loop fuel ids offset num_tokens p [eot_token_id p]
    (Main.init p (eot_token_id p)) = Finished s ->
  exists l, compressed_ids s = eot_token_id p :: l.
Proof.
  intros Hn Hoff Hm Hl.
  destruct fuel as [|fuel]; [discriminate|].
  set (eot := eot_token_id p) in *.
  assert (Hinit : Main.init p eot = State [] Codebook.empty (initial_vocab_size p) [] 0).
  { unfold Main.init. fold eot. rewrite Nat.eqb_refl. reflexivity. }
  rewrite Hinit in Hl. cbn [Main.compress_loop i compressed_ids] in Hl.
  rewrite Nat.add_0_r, Hn in Hl.
  cbn [length] in Hl. apply Nat.ltb_lt in Hoff, Hm. rewrite Hoff, Hm in Hl. cbn in Hl.
  rewrite Nat.eqb_refl in Hl. cbn in Hl.
  set (s2 := State (Main.push p [] eot) Codebook.empty (initial_vocab_size p) [] 1) in Hl.
  assert (Hpush : Main.push p [] eot = [eot]).
  { unfold Main.push, Main.push_to_compressed_ids. simpl. rewrite Hm. reflexivity. }
  assert (Hinv : main_inv p ids offset [eot] [] s2).
  { unfold main_inv, s2; cbn [codebook next_id ids_to_merge compressed_ids i].
    split6.
    - apply cb_wf_empty.
    - left; reflexivity.
    - constructor.
    - constructor.
    - exists [eot], [[eot]]. split; [reflexivity|]. split; [|split].
      + apply emitted_cons; [reflexivity|discriminate|apply emitted_nil].
      + constructor; [|constructor]. left. exists eot. split; [reflexivity|].
        simpl. rewrite Nat.eqb_refl. reflexivity.
      + rewrite (firstn_snoc (skipn offset ids) 0 eot); [reflexivity|].
        rewrite nth_error_skipn, Nat.add_0_r. exact Hn.
    - intros H. split; [exact H|constructor]. }
  destruct (main_loop_inv p ids offset num_tokens [eot] [] fuel s2 s Hinv Hl)
    as (_ & _ & _ & l & Hl2).
  exists l. rewrite Hl2. unfold s2; cbn [compressed_ids]. rewrite Hpush. reflexivity.
Qed.

Lemma resize_length {A : Type} (v : list A) n x : length (resize v n x) = n.
Proof. unfold resize. rewrite length_app, length_firstn, repeat_length. lia. Qed.

Lemma resize_Forall {A : Type} (P : A -> Prop) (v : list A) n x :
  Forall P v -> P x -> Forall P (resize v n x).
Proof.
  intros Hv Hx. unfold resize. apply Forall_app. split.
  - apply Forall_firstn'. exact Hv.
  - apply Forall_forall. intros y Hy. apply repeat_spec in Hy. subst. exact Hx.
Qed.

Ltac destruct_innermost :=
  match goal with
  | |- context [match ?x with _ => _ end] =>
      lazymatch x with
      | context [match _ with _ => _ end] => fail
      | _ => destruct x eqn:?
      end
  end.

Lemma get_usize_cases cb ph c :
  get_usize_from_codebook cb ph = Some c -> ph = [c] \/ In (ph, c) cb.
Proof.
  unfold get_usize_from_codebook. destruct ph as [|x [|y r]].
  - intros H. right. apply get_In. exact H.
  - injection 1 as ->. left. reflexivity.
  - intros H. right. apply get_In. exact H.
Qed.


(** ** Decoding with the serialized table *)














(** * The properties of the compressor *)




(** C2: in lib.rs a disabled id does not advance the loop: an input that
    starts with a disabled id makes [compress] run out of any amount of
    fuel, i.e. it does not terminate. *)
Theorem lib_disabled_no_progress fuel ids p disabled_ids d rest :
  ids = d :: rest ->
  FastSet.contains disabled_ids d = true ->
  0 < max_out_seq_length p ->
  Lib.compress fuel ids p disabled_ids = OutOfFuel.
Proof.
  intros -> Hd Hm. unfold Lib.compress.
  rewrite (lib_loop_diverges p (d :: rest) disabled_ids fuel (Lib.init p) d);
    simpl; auto; lia.
Qed.

Lemma lib_disabled_no_progress_witness :
  Lib.compress 1000 [50] (Params 100 4 3 10 50) [50] = OutOfFuel.
Proof.
  apply (lib_disabled_no_progress 1000 [50] (Params 100 4 3 10 50) [50] 50 []).
  - reflexivity.
  - vm_compute. reflexivity.
  - simpl. lia.
Defined.

(** C3 (main.rs): no codebook phrase contains a disabled id, and the output
    is the forced boundary marker (if any) followed by the emitted ids that
    fit under the cap; each emitted id stands for a segment of the consumed
    ids, either a disabled id on its own, emitted as itself, or a non-empty
    run free of disabled ids, and the segments in order are exactly the
    consumed ids.  If the output is shorter than the cap, no emitted id was
    dropped. *)
Theorem disabled_pass_through fuel ids offset num_tokens p disabled_ids first s out :
  Main.compress_loop fuel ids offset num_tokens p disabled_ids (Main.init p first) = Finished s ->
  final_flush p (Main.push p) s = Some out ->
  Forall (no_disabled disabled_ids) (Codebook.keys (codebook s)) /\
  exists em phs,
    out = compressed_ids (Main.init p first) ++
          firstn (max_out_seq_length p - length (compressed_ids (Main.init p first))) em /\
    Forall2 (fun c ph => (ph = [c] /\ FastSet.contains disabled_ids c = true) \/
                         (no_disabled disabled_ids ph /\ ph <> [] /\
                          get_usize_from_codebook (codebook s) ph = Some c)) em phs /\
    concat phs = firstn (i s) (skipn offset ids) /\
    (length out < max_out_seq_length p -> out = compressed_ids (Main.init p first) ++ em).
Proof.
  intros Hl Hf.
  destruct (main_run fuel ids offset num_tokens p disabled_ids first s out Hl Hf)
    as (Hinv & _ & _ & em & phs & Hout & Hem & Hseg & Hcat).
  destruct Hinv as (_ & _ & _ & Hkeys & _).
  split; [exact Hkeys|]. exists em, phs.
  rewrite fold_left_main_push in Hout.
  split; [exact Hout|split; [apply emitted_segments; assumption|split; [exact Hcat|]]].
  intros Hlt. rewrite Hout in Hlt |- *. f_equal. apply firstn_all2.
  rewrite length_app, length_firstn in Hlt. lia.
Qed.

Lemma disabled_pass_through_witness :
  Forall (no_disabled [50]) (Codebook.keys [([5; 6], 100)]) /\
  exists em phs,
    [50; 5] = [] ++ firstn (2 - 0) em /\
    Forall2 (fun c ph => (ph = [c] /\ FastSet.contains [50] c = true) \/
                         (no_disabled [50] ph /\ ph <> [] /\
                          get_usize_from_codebook [([5; 6], 100)] ph = Some c)) em phs /\
    concat phs = firstn 3 (skipn 0 [50; 5; 6; 7]) /\
    (length [50; 5] < 2 -> [50; 5] = [] ++ em).
Proof.
  exact (disabled_pass_through 100 [50; 5; 6; 7] 0 4 (Params 100 4 4 2 50) [50] 50
           (State [50; 5] [([5; 6], 100)] 101 [6] 3) [50; 5]
           ltac:(vm_compute; reflexivity) ltac:(vm_compute; reflexivity)).
Defined.

(** C3 fails for main.rs at the cap: the second disabled id [50] is
    consumed (three ids are consumed) but does not appear in the output. *)
Lemma disabled_dropped_at_cap :
  Main.compress 100 [50; 5; 50; 7] 0 4 (Params 100 4 4 2 50) [50] =
    Finished ([50; 5], repeat 50 16, 3).
Proof. vm_compute. reflexivity. Qed.

(** C4: with [max_subtokens >= 1] and every id outside the disabled set a
    raw id, no lookup fails: lib.rs [compress] never panics, and main.rs
    [compress] never panics when its window start and [num_tokens] lie
    within the input (which rules out the index panics of main.rs). *)
Theorem lookups_defined :
  (forall fuel ids p disabled_ids,
     0 < max_subtokens p -> raw_outside_disabled p ids disabled_ids ->
     Lib.compress fuel ids p disabled_ids <> Panicked) /\
  (forall fuel ids offset num_tokens p disabled_ids,
     0 < max_subtokens p -> raw_outside_disabled p ids disabled_ids ->
     offset < length ids -> num_tokens <= length ids ->
     Main.compress fuel ids offset num_tokens p disabled_ids <> Panicked).
Proof.
  split.
  - intros fuel ids p disabled_ids Hms Hraw. unfold Lib.compress.
    pose proof (lib_loop_safe p ids disabled_ids Hraw fuel (Lib.init p) (safe_init_lib p Hms))
      as Hl.
    destruct (Lib.compress_loop fuel ids p disabled_ids (Lib.init p)) as [s| |];
      [|contradiction|discriminate].
    destruct (safe_final_flush p Lib.push s Hl) as [out ->]. discriminate.
  - intros fuel ids offset num_tokens p disabled_ids Hms Hraw Hoff Hnum. unfold Main.compress.
    destruct (nth_error ids offset) as [first|] eqn:Hn.
    2:{ apply nth_error_None in Hn. lia. }
    pose proof (main_loop_safe p ids disabled_ids Hraw offset num_tokens Hnum fuel
                  (Main.init p first) (safe_init_main p first Hms)) as Hl.
    destruct (Main.compress_loop fuel ids offset num_tokens p disabled_ids (Main.init p first))
      as [s| |]; [|contradiction|discriminate].
    destruct (safe_final_flush p (Main.push p) s Hl) as [out ->]. discriminate.
Qed.

Lemma lookups_defined_witness :
  Lib.compress 100 [5; 6; 5; 6] (Params 100 4 3 10 0) [] <> Panicked /\
  Main.compress 100 [50; 5; 6; 7] 0 4 (Params 100 4 4 2 50) [50] <> Panicked.
Proof.
  split.
  - apply (proj1 lookups_defined); [simpl; lia|].
    intros x Hx _. simpl in Hx. simpl. intuition lia.
  - apply (proj2 lookups_defined); [simpl; lia| |simpl; lia|simpl; lia].
    intros x Hx Hd. simpl in Hx. simpl.
    destruct Hx as [<-|Hx]; [vm_compute in Hd; discriminate|intuition lia].
Defined.

(** C4 fails with [max_subtokens = 0]: the end-of-input flush looks up the
    empty phrase, which is not registered, and lib.rs panics. *)
Lemma lookup_fails_without_subtokens :
  Lib.compress 10 [5] (Params 100 4 0 10 0) [] = Panicked /\
  get_usize_from_codebook Codebook.empty [] = None.
Proof. vm_compute. split; reflexivity. Qed.

(** C5: the output of lib.rs has at most [max_out_seq_length] ids, as it
    consumes at most that many input ids; the output of main.rs has at most
    [max_out_seq_length] ids when [max_out_seq_length >= 1]; its loop stops
    as soon as that many ids are emitted, and a push at the cap leaves the
    output unchanged. *)
Theorem output_cap :
  (forall fuel ids p disabled_ids out tbl rest,
     Lib.compress fuel ids p disabled_ids = Finished (out, tbl, rest) ->
     length out <= max_out_seq_length p) /\
  (forall fuel ids offset num_tokens p disabled_ids out tbl n,
     0 < max_out_seq_length p ->
     Main.compress fuel ids offset num_tokens p disabled_ids = Finished (out, tbl, n) ->
     length out <= max_out_seq_length p) /\
  (forall fuel ids offset num_tokens p disabled_ids s,
     max_out_seq_length p <= length (compressed_ids s) ->
     Main.compress_loop (S fuel) ids offset num_tokens p disabled_ids s = Finished s) /\
  (forall p v x, max_out_seq_length p <= length v -> Main.push p v x = v).
Proof.
  split; [|split; [|split]].
  - intros fuel ids p disabled_ids out tbl rest H. unfold Lib.compress in H.
    destruct (Lib.compress_loop fuel ids p disabled_ids (Lib.init p)) as [s| |] eqn:Hl;
      try discriminate.
    destruct (final_flush p Lib.push s) as [out'|] eqn:Hf; [|discriminate].
    injection H as <- _ _.
    destruct (lib_run fuel ids p disabled_ids s out' Hl Hf) as (_ & Hi & phs & Hem & Hcat).
    apply emitted_length in Hem. rewrite Hcat, length_firstn in Hem. lia.
  - intros fuel ids offset num_tokens p disabled_ids out tbl n Hm H. unfold Main.compress in H.
    destruct (nth_error ids offset) as [first|]; [|discriminate].
    destruct (Main.compress_loop fuel ids offset num_tokens p disabled_ids (Main.init p first))
      as [s| |] eqn:Hl; try discriminate.
    destruct (final_flush p (Main.push p) s) as [out'|] eqn:Hf; [|discriminate].
    injection H as <- _ _.
    destruct (main_run fuel ids offset num_tokens p disabled_ids first s out' Hl Hf)
      as (_ & _ & _ & em & phs & -> & _).
    rewrite fold_left_main_push, length_app, length_firstn.
    pose proof (main_init_length p first). lia.
  - intros. apply main_loop_capped. assumption.
  - intros p v x H. unfold Main.push, Main.push_to_compressed_ids.
    apply Nat.ltb_ge in H. rewrite H. reflexivity.
Qed.

Lemma output_cap_witness :
  length [5; 6; 100; 102; 101; 6] <= 10 /\ length [50; 5] <= 2 /\
  Main.compress_loop 1 [50; 5; 6; 7] 0 4 (Params 100 4 4 2 50) [50]
    (State [50; 5] [] 100 [] 2) = Finished (State [50; 5] [] 100 [] 2) /\
  Main.push (Params 100 4 4 2 50) [50; 5] 6 = [50; 5].
Proof.
  split; [|split; [|split]].
  - exact (proj1 output_cap 100 [5; 6; 5; 6; 5; 6; 5; 6; 5; 6] (Params 100 4 3 10 0) []
             _ _ _ ltac:(vm_compute; reflexivity)).
  - exact (proj1 (proj2 output_cap) 100 [50; 5; 6; 7] 0 4 (Params 100 4 4 2 50) [50]
             _ _ _ ltac:(simpl; lia) ltac:(vm_compute; reflexivity)).
  - exact (proj1 (proj2 (proj2 output_cap)) 0 [50; 5; 6; 7] 0 4 (Params 100 4 4 2 50) [50]
             (State [50; 5] [] 100 [] 2) ltac:(simpl; lia)).
  - exact (proj2 (proj2 (proj2 output_cap)) (Params 100 4 4 2 50) [50; 5] 6
             ltac:(simpl; lia)).
Defined.

(** C5 fails for main.rs with [max_out_seq_length = 0]: the boundary
    marker forced at the start of the window is pushed without the cap. *)
Lemma output_cap_forced_marker :
  Main.compress 10 [5; 6] 0 2 (Params 100 4 3 0 0) [] = Finished ([0], repeat 0 12, 0).
Proof. vm_compute. reflexivity. Qed.

(** C6: the codebook of a window starts empty with [next_id] at
    [initial_vocab_size]; it always maps its n phrases, without duplicates,
    to [initial_vocab_size], ..., [initial_vocab_size + n - 1] in insertion
    order, with n at most [max_codebook_size].  A merge step (shared by
    lib.rs and main.rs) either leaves the codebook and [next_id] alone or
    appends one new phrase with the fresh id [next_id] and increments it,
    so existing entries are kept; when the codebook is full it is left
    alone, and the step still succeeds. *)
Theorem capacity_policy p :
  cb_wf p (codebook (Lib.init p)) (next_id (Lib.init p)) /\
  (forall first, cb_wf p (codebook (Main.init p first)) (next_id (Main.init p first))) /\
  (forall push s id s',
     cb_wf p (codebook s) (next_id s) -> cand_ok (codebook s) (ids_to_merge s) ->
     merge_id p push s id = Some s' ->
     cb_wf p (codebook s') (next_id s') /\
     ((codebook s' = codebook s /\ next_id s' = next_id s) \/
      (next_id s < initial_vocab_size p + max_codebook_size p /\
       ~ In (ids_to_merge s ++ [id]) (Codebook.keys (codebook s)) /\
       codebook s' = codebook s ++ [(ids_to_merge s ++ [id], next_id s)] /\
       next_id s' = next_id s + 1)) /\
     (length (codebook s) = max_codebook_size p ->
        codebook s' = codebook s /\ next_id s' = next_id s)) /\
  (forall push s id,
     cb_wf p (codebook s) (next_id s) -> cand_ok (codebook s) (ids_to_merge s) ->
     (ids_to_merge s = [] -> id < initial_vocab_size p) ->
     exists s', merge_id p push s id = Some s').
Proof.
  split; [apply cb_wf_empty|split; [intros; apply cb_wf_empty|split]].
  - intros push s id s' Hwf Hok H.
    destruct (merge_id_spec p push s id s' Hwf Hok H) as (_ & Hwf' & Hcb & _).
    split; [exact Hwf'|split; [exact Hcb|]].
    intros Hfull. destruct Hcb as [Hcb|(Hlt & _)]; [exact Hcb|].
    destruct Hwf as (_ & Hnid & _). lia.
  - intros. apply merge_id_some; assumption.
Qed.

Lemma capacity_policy_witness :
  merge_id (Params 100 1 3 10 0) Lib.push
    (State [5] [([5; 6], 100)] 101 [6] 2) 7 = Some (State [5; 6] [([5; 6], 100)] 101 [7] 2) /\
  codebook (State [5; 6] [([5; 6], 100)] 101 [7] 2) = [([5; 6], 100)].
Proof.
  assert (Hwf : cb_wf (Params 100 1 3 10 0) [([5; 6], 100)] 101).
  { unfold cb_wf; simpl. split; [reflexivity|split; [reflexivity|split; [lia|split]]].
    - constructor; [simpl; tauto|constructor].
    - constructor; [simpl; lia|constructor]. }
  assert (Hok : cand_ok [([5; 6], 100)] [6]) by (right; exists 6; reflexivity).
  assert (Hm : merge_id (Params 100 1 3 10 0) Lib.push (State [5] [([5; 6], 100)] 101 [6] 2) 7 =
               Some (State [5; 6] [([5; 6], 100)] 101 [7] 2)) by (vm_compute; reflexivity).
  split; [exact Hm|].
  exact (proj1 (proj2 (proj2 (proj1 (proj2 (proj2 (capacity_policy (Params 100 1 3 10 0))))
           Lib.push (State [5] [([5; 6], 100)] 101 [6] 2) 7 _ Hwf Hok Hm)) eq_refl)).
Defined.

(** C7: with [max_subtokens >= 1], when [compress] returns, the table of
    lib.rs lists the phrases of the window's codebook in the order of their
    ids [initial_vocab_size], [initial_vocab_size + 1], ..., each padded
    with the boundary marker to [max_subtokens] ids, followed by
    all-boundary-marker rows, [max_codebook_size] rows of [max_subtokens]
    ids in total; the table of main.rs is the same rows concatenated,
    [max_codebook_size * max_subtokens] ids. *)
Theorem codebook_serialization :
  (forall fuel ids p disabled_ids s out,
     0 < max_subtokens p ->
     Lib.compress_loop fuel ids p disabled_ids (Lib.init p) = Finished s ->
     final_flush p Lib.push s = Some out ->
     Codebook.values (codebook s) = seq (initial_vocab_size p) (length (codebook s)) /\
     Lib.codebook_vec p (codebook s) =
       map (pad_phrase p) (Codebook.keys (codebook s)) ++
       repeat (repeat (eot_token_id p) (max_subtokens p))
              (max_codebook_size p - length (codebook s)) /\
     Forall (fun k => length (pad_phrase p k) = max_subtokens p) (Codebook.keys (codebook s)) /\
     length (Lib.codebook_vec p (codebook s)) = max_codebook_size p) /\
  (forall fuel ids offset num_tokens p disabled_ids first s out,
     0 < max_subtokens p ->
     Main.compress_loop fuel ids offset num_tokens p disabled_ids (Main.init p first) = Finished s ->
     final_flush p (Main.push p) s = Some out ->
     Codebook.values (codebook s) = seq (initial_vocab_size p) (length (codebook s)) /\
     Main.codebook_vec p (codebook s) =
       concat (map (pad_phrase p) (Codebook.keys (codebook s)) ++
               repeat (repeat (eot_token_id p) (max_subtokens p))
                      (max_codebook_size p - length (codebook s))) /\
     Forall (fun k => length (pad_phrase p k) = max_subtokens p) (Codebook.keys (codebook s)) /\
     length (Main.codebook_vec p (codebook s)) = max_codebook_size p * max_subtokens p).
Proof.
  assert (Hgen : forall p cb nid,
    cb_wf p cb nid -> Forall (fun k => length k <= max_subtokens p) (Codebook.keys cb) ->
    Codebook.values cb = seq (initial_vocab_size p) (length cb) /\
    Lib.codebook_vec p cb =
      map (pad_phrase p) (Codebook.keys cb) ++
      repeat (repeat (eot_token_id p) (max_subtokens p)) (max_codebook_size p - length cb) /\
    Main.codebook_vec p cb = concat (Lib.codebook_vec p cb) /\
    Forall (fun k => length (pad_phrase p k) = max_subtokens p) (Codebook.keys cb) /\
    length (Lib.codebook_vec p cb) = max_codebook_size p /\
    length (Main.codebook_vec p cb) = max_codebook_size p * max_subtokens p).
  { intros p cb nid (Hv & _ & Hl & _) Hk.
    destruct (codebook_vec_shape p cb Hv Hl Hk) as [Hlib Hmain].
    assert (Hpad : Forall (fun k => length (pad_phrase p k) = max_subtokens p) (Codebook.keys cb)).
    { eapply Forall_impl; [|exact Hk]. intros k Hk0. cbv beta in *.
      unfold pad_phrase. rewrite length_app, repeat_length. lia. }
    assert (Hlen : length (Lib.codebook_vec p cb) = max_codebook_size p).
    { rewrite Hlib, length_app, length_map, repeat_length.
      unfold Codebook.keys. rewrite length_map. lia. }
    split; [exact Hv|split; [exact Hlib|split; [exact Hmain|split; [exact Hpad|split; [exact Hlen|]]]]].
    rewrite Hmain, Hlib.
    assert (Hrows : Forall (fun r => length r = max_subtokens p)
              (map (pad_phrase p) (Codebook.keys cb) ++
               repeat (repeat (eot_token_id p) (max_subtokens p)) (max_codebook_size p - length cb))).
    { apply Forall_app. split.
      - apply Forall_map. exact Hpad.
      - apply Forall_forall. intros r Hr. apply repeat_spec in Hr. subst. apply repeat_length. }
    rewrite Hlib in Hlen. revert Hrows Hlen.
    generalize (map (pad_phrase p) (Codebook.keys cb) ++
                repeat (repeat (eot_token_id p) (max_subtokens p)) (max_codebook_size p - length cb)).
    intros rows Hrows <-. induction Hrows as [|r rows Hr _ IH]; [reflexivity|].
    simpl. rewrite length_app, Hr, IH. reflexivity. }
  split.
  - intros fuel ids p disabled_ids s out Hms Hl Hf.
    destruct (lib_run fuel ids p disabled_ids s out Hl Hf) as ((Hwf & _ & _ & _ & _ & Hms') & _).
    destruct (Hgen p _ _ Hwf (proj2 (Hms' Hms))) as (Hv & Hlib & _ & Hpad & Hlen & _).
    auto.
  - intros fuel ids offset num_tokens p disabled_ids first s out Hms Hl Hf.
    destruct (main_run fuel ids offset num_tokens p disabled_ids first s out Hl Hf)
      as ((Hwf & _ & _ & _ & _ & Hms') & _).
    destruct (Hgen p _ _ Hwf (proj2 (Hms' Hms))) as (Hv & Hlib & Hmain & Hpad & _ & Hlen).
    rewrite Hmain, <- Hlib. rewrite Hmain in Hlen. auto.
Qed.

Lemma codebook_serialization_witness :
  Lib.codebook_vec (Params 100 4 3 10 0)
    [([5; 6], 100); ([6; 5], 101); ([5; 6; 5], 102); ([6; 5; 6], 103)] =
    map (pad_phrase (Params 100 4 3 10 0)) [[5; 6]; [6; 5]; [5; 6; 5]; [6; 5; 6]] ++
    repeat (repeat 0 3) 0 /\
  length (Main.codebook_vec (Params 100 4 4 2 50) [([5; 6], 100)]) = 16.
Proof.
  split.
  - exact (proj1 (proj2 (proj1 codebook_serialization 100 [5; 6; 5; 6; 5; 6; 5; 6; 5; 6]
             (Params 100 4 3 10 0) []
             (State [5; 6; 100; 102; 101]
                [([5; 6], 100); ([6; 5], 101); ([5; 6; 5], 102); ([6; 5; 6], 103)] 104 [6] 10)
             [5; 6; 100; 102; 101; 6]
             ltac:(simpl; lia) ltac:(vm_compute; reflexivity) ltac:(vm_compute; reflexivity)))).
  - exact (proj2 (proj2 (proj2 (proj2 codebook_serialization 100 [50; 5; 6; 7] 0 4
             (Params 100 4 4 2 50) [50] 50 (State [50; 5] [([5; 6], 100)] 101 [6] 3) [50; 5]
             ltac:(simpl; lia) ltac:(vm_compute; reflexivity) ltac:(vm_compute; reflexivity))))).
Defined.

(** C7 fails with [max_subtokens = 0]: the phrase [[5; 6]] is registered
    with id 100, but every row of the table is empty. *)
Lemma serialization_zero_subtokens :
  Lib.compress_loop 10 [5; 6; 5; 6] (Params 100 4 0 10 0) [] (Lib.init (Params 100 4 0 10 0)) =
    Finished (State [5; 6] [([5; 6], 100); ([6; 5], 101)] 102 [5; 6] 4) /\
  Lib.compress 10 [5; 6; 5; 6] (Params 100 4 0 10 0) [] =
    Finished ([5; 6; 5; 6], [[]; []; []; []], None).
Proof. vm_compute. split; reflexivity. Qed.

(** C8: when lib.rs [compress] returns, its third result is found by a
    scan from the index [i] where consumption stopped
    ([min (length ids) max_out_seq_length]): if some id at an index [>= i]
    is the boundary marker, it is the suffix of the input from the first
    such index [j], so no id between [i] and [j] is in it; otherwise it is
    [None]. *)
Theorem leftover_slice fuel ids p disabled_ids out tbl rest :
  Lib.compress fuel ids p disabled_ids = Finished (out, tbl, rest) ->
  exists s, Lib.compress_loop fuel ids p disabled_ids (Lib.init p) = Finished s /\
    i s = Nat.min (length ids) (max_out_seq_length p) /\
    match rest with
    | Some sfx =>
        exists j, i s <= j < length ids /\ nth_error ids j = Some (eot_token_id p) /\
          (forall k, i s <= k < j -> nth_error ids k <> Some (eot_token_id p)) /\
          sfx = skipn j ids
    | None => forall k, i s <= k < length ids -> nth_error ids k <> Some (eot_token_id p)
    end.
Proof.
  intros H. unfold Lib.compress in H.
  destruct (Lib.compress_loop fuel ids p disabled_ids (Lib.init p)) as [s| |] eqn:Hl;
    try discriminate.
  destruct (final_flush p Lib.push s) as [out'|] eqn:Hf; [|discriminate].
  injection H as _ _ <-.
  exists s. split; [reflexivity|].
  destruct (lib_run fuel ids p disabled_ids s out' Hl Hf) as ((_ & _ & Hil & _) & Hi & _).
  split; [exact Hi|].
  unfold Lib.remaining_ids.
  pose proof (scan_eot_spec ids (eot_token_id p) (length ids) (i s) ltac:(lia)) as Hs.
  destruct (Lib.scan_eot ids (eot_token_id p) (length ids) (i s)) as [j [|]].
  - exists j. destruct Hs as (Hr & Hn & Hb). auto.
  - exact Hs.
Qed.

Lemma leftover_slice_witness :
  exists s, Lib.compress_loop 100 [7; 1; 0; 2; 0; 3] (Params 100 4 3 2 0) []
              (Lib.init (Params 100 4 3 2 0)) = Finished s /\
    i s = 2 /\
    exists j, i s <= j < 6 /\ nth_error [7; 1; 0; 2; 0; 3] j = Some 0 /\
      (forall k, i s <= k < j -> nth_error [7; 1; 0; 2; 0; 3] k <> Some 0) /\
      [0; 2; 0; 3] = skipn j [7; 1; 0; 2; 0; 3].
Proof.
  exact (leftover_slice 100 [7; 1; 0; 2; 0; 3] (Params 100 4 3 2 0) [] [7; 1]
           [[7; 1; 0]; [0; 0; 0]; [0; 0; 0]; [0; 0; 0]] (Some [0; 2; 0; 3])
           ltac:(vm_compute; reflexivity)).
Defined.

(** C9: in main.rs, with the disabled set built from the boundary marker
    alone (as [compress_file] does for every window), a window whose first
    id is not the boundary marker starts its output with the boundary
    marker; so does a window starting on the boundary marker when it is
    within [num_tokens] and the cap is at least one. *)
Theorem window_alignment fuel ids offset num_tokens p disabled_ids out tbl n :
  disabled_ids_to_set (Some [eot_token_id p]) = Some disabled_ids ->
  Main.compress fuel ids offset num_tokens p disabled_ids = Finished (out, tbl, n) ->
  (nth_error ids offset <> Some (eot_token_id p) -> exists r, out = eot_token_id p :: r) /\
  (offset < num_tokens -> 0 < max_out_seq_length p -> exists r, out = eot_token_id p :: r).
Proof.
  intros Hd H.
  assert (Hdis : disabled_ids = [eot_token_id p]).
  { unfold disabled_ids_to_set, FastSet.insert, FastSet.with_capacity in Hd. simpl in Hd.
    congruence. }
  subst disabled_ids. unfold Main.compress in H.
  destruct (nth_error ids offset) as [first|] eqn:Hn; [|discriminate].
  destruct (Main.compress_loop fuel ids offset num_tokens p [eot_token_id p] (Main.init p first))
    as [s| |] eqn:Hl; try discriminate.
  destruct (final_flush p (Main.push p) s) as [out'|] eqn:Hf; [|discriminate].
  injection H as <- _ _.
  destruct (main_run fuel ids offset num_tokens p [eot_token_id p] first s out' Hl Hf)
    as (_ & _ & [l2 Hl2] & em & phs & Hout & _).
  assert (Hne : first <> eot_token_id p -> exists r, out' = eot_token_id p :: r).
  { intros Hfe. rewrite Hout, fold_left_main_push, main_init_eot by exact Hfe.
    eexists. reflexivity. }
  split.
  - intros Hfe. apply Hne. congruence.
  - intros Hoff Hm. destruct (Nat.eq_dec first (eot_token_id p)) as [->|Hfe]; [|auto].
    destruct (main_first_boundary fuel ids offset num_tokens p s Hn Hoff Hm Hl) as [l Hl1].
    rewrite Hl2, Hl1. eexists. reflexivity.
Qed.

Lemma window_alignment_witness :
  (nth_error [5; 6; 50; 7] 0 <> Some 50 -> exists r, [50; 5] = 50 :: r) /\
  (0 < 4 -> 0 < 2 -> exists r, [50; 5] = 50 :: r).
Proof.
  exact (window_alignment 100 [5; 6; 50; 7] 0 4 (Params 100 4 4 2 50) [50] [50; 5]
           [5; 6; 50; 50; 50; 50; 50; 50; 50; 50; 50; 50; 50; 50; 50; 50] 2
           ltac:(vm_compute; reflexivity) ltac:(vm_compute; reflexivity)).
Defined.

(** C10: lib.rs [py_compress] with an explicit empty disabled-id list
    panics (the maximum of the empty list is unwrapped), for every input,
    while passing no list gives the empty set and runs [compress]. *)
Theorem empty_disabled_list_panics fuel ids p :
  Lib.py_compress fuel ids p (Some []) = Panicked /\
  disabled_ids_to_set None = Some [] /\
  Lib.py_compress fuel ids p None = Lib.compress fuel ids p [].
Proof. split; [|split]; reflexivity. Qed.

(** * Further properties of the code *)

(** ** Helpers *)

Lemma fastset_insert_contains s x y :
  FastSet.contains (FastSet.insert s x) y = (FastSet.contains s y || (y =? x)).
Proof.
  unfold FastSet.insert. destruct (FastSet.contains s x) eqn:Hx.
  - destruct (Nat.eqb_spec y x) as [->|]; [rewrite Hx; reflexivity|rewrite orb_false_r; reflexivity].
  - unfold FastSet.contains. rewrite existsb_app. simpl. rewrite orb_false_r. reflexivity.
Qed.

Lemma fastset_fold_insert_contains d s y :
  FastSet.contains (fold_left FastSet.insert d s) y =
  (FastSet.contains s y || existsb (Nat.eqb y) d).
Proof.
  revert s. induction d as [|x d IH]; intros s; simpl.
  - rewrite orb_false_r. reflexivity.
  - rewrite IH, fastset_insert_contains, orb_assoc. reflexivity.
Qed.

Lemma get_insert_other (cb : Codebook.t) k v k' :
  k' <> k -> Codebook.get (Codebook.insert cb k v) k' = Codebook.get cb k'.
Proof.
  intros Hne. induction cb as [|[k0 v0] cb IH]; simpl.
  - destruct (list_eq_dec Nat.eq_dec k' k); [congruence|reflexivity].
  - destruct (list_eq_dec Nat.eq_dec k k0) as [->|Hk]; simpl.
    + destruct (list_eq_dec Nat.eq_dec k' k0); [congruence|reflexivity].
    + destruct (list_eq_dec Nat.eq_dec k' k0); [reflexivity|exact IH].
Qed.

Lemma merge_id_i p push s id s1 : merge_id p push s id = Some s1 -> i s1 = i s.
Proof.
  unfold merge_id. repeat destruct_innermost; try discriminate; injection 1 as <-;
    simpl; reflexivity.
Qed.

Lemma flush_candidate_i push s s1 : flush_candidate push s = Some s1 -> i s1 = i s.
Proof.
  unfold flush_candidate. destruct (0 <? _).
  - destruct (get_usize_from_codebook _ _); [|discriminate]. injection 1 as <-. reflexivity.
  - injection 1 as <-. reflexivity.
Qed.

Lemma main_loop_progress fuel ids offset num_tokens p disabled_ids s s' :
  Main.compress_loop fuel ids offset num_tokens p disabled_ids s = Finished s' ->
  i s <= i s' /\ i s' <= Nat.max (i s) (num_tokens - offset) /\
  (offset + i s < num_tokens -> length (compressed_ids s) < max_out_seq_length p ->
     i s < i s') /\
  (~ (offset + i s < num_tokens /\ length (compressed_ids s) < max_out_seq_length p) ->
     s' = s).
Proof.
  revert s. induction fuel as [|fuel IH]; intros s H; [discriminate|].
  simpl in H.
  destruct (Nat.ltb_spec (offset + i s) num_tokens) as [Hl|Hl];
  destruct (Nat.ltb_spec (length (compressed_ids s)) (max_out_seq_length p)) as [Hm|Hm];
    simpl in H;
    try (injection H as <-; split; [lia|split; [lia|split; [intros; lia|reflexivity]]]).
  destruct (nth_error ids (offset + i s)) as [id|]; [|discriminate].
  destruct (FastSet.contains disabled_ids id).
  - destruct (flush_candidate (Main.push p) s) as [s1|] eqn:Hs1; [|discriminate].
    apply flush_candidate_i in Hs1.
    destruct (IH _ H) as (H1 & H2 & _). simpl in H1, H2.
    split; [lia|split; [lia|split; [intros; lia|intros []; auto]]].
  - destruct (merge_id p (Main.push p) s id) as [s1|] eqn:Hs1; [|discriminate].
    apply merge_id_i in Hs1.
    destruct (IH _ H) as (H1 & H2 & _). simpl in H1, H2.
    split; [lia|split; [lia|split; [intros; lia|intros []; auto]]].
Qed.

Lemma main_loop_terminates fuel ids offset num_tokens p disabled_ids s :
  num_tokens - (offset + i s) < fuel ->
  Main.compress_loop fuel ids offset num_tokens p disabled_ids s <> OutOfFuel.
Proof.
  revert s. induction fuel as [|fuel IH]; intros s Hf; [lia|].
  simpl.
  destruct (Nat.ltb_spec (offset + i s) num_tokens) as [Hl|Hl];
  destruct (Nat.ltb_spec (length (compressed_ids s)) (max_out_seq_length p)) as [Hm|Hm];
    simpl; try discriminate.
  destruct (nth_error ids (offset + i s)) as [id|]; [|discriminate].
  destruct (FastSet.contains disabled_ids id).
  - destruct (flush_candidate (Main.push p) s) as [s1|] eqn:Hs1; [|discriminate].
    apply flush_candidate_i in Hs1. apply IH. simpl. lia.
  - destruct (merge_id p (Main.push p) s id) as [s1|] eqn:Hs1; [|discriminate].
    apply merge_id_i in Hs1. apply IH. simpl. lia.
Qed.

Lemma main_compress_terminates fuel ids offset num_tokens p disabled_ids :
  num_tokens - offset < fuel ->
  Main.compress fuel ids offset num_tokens p disabled_ids <> OutOfFuel.
Proof.
  intros Hf. unfold Main.compress.
  destruct (nth_error ids offset) as [first|]; [|discriminate].
  pose proof (main_loop_terminates fuel ids offset num_tokens p disabled_ids (Main.init p first))
    as Ht. simpl in Ht. rewrite Nat.add_0_r in Ht. specialize (Ht Hf).
  destruct (Main.compress_loop _ _ _ _ _ _ _); [|discriminate|congruence].
  destruct (final_flush _ _ _); discriminate.
Qed.

Lemma main_compress_consumed fuel ids offset num_tokens p disabled_ids out tbl n :
  Main.compress fuel ids offset num_tokens p disabled_ids = Finished (out, tbl, n) ->
  n <= num_tokens - offset /\
  (offset < num_tokens -> 2 <= max_out_seq_length p -> 1 <= n) /\
  (max_out_seq_length p <= 1 -> nth_error ids offset <> Some (eot_token_id p) -> n = 0) /\
  length tbl = max_codebook_size p * max_subtokens p.
Proof.
  unfold Main.compress.
  destruct (nth_error ids offset) as [first|] eqn:Hn; [|discriminate].
  destruct (Main.compress_loop fuel ids offset num_tokens p disabled_ids (Main.init p first))
    as [s| |] eqn:Hl; try discriminate.
  destruct (final_flush p (Main.push p) s) as [out'|]; [|discriminate].
  injection 1 as <- <- <-.
  destruct (main_loop_progress _ _ _ _ _ _ _ _ Hl) as (_ & H2 & H3 & H4).
  pose proof (main_init_length p first) as Hil.
  simpl in H2, H3, H4, Hil. split; [lia|split; [|split]].
  - intros Ho Hm. apply H3; lia.
  - intros Hm Hf. rewrite H4; [reflexivity|]. intros [_ Hc].
    unfold Main.init in Hc. simpl in Hc.
    destruct (Nat.eqb_spec first (eot_token_id p)); simpl in Hc; [congruence|lia].
  - apply resize_length.
Qed.

Lemma lib_loop_terminates fuel ids p disabled_ids s :
  (forall k x, i s <= k -> k < max_out_seq_length p -> nth_error ids k = Some x ->
     FastSet.contains disabled_ids x = false) ->
  Nat.min (length ids) (max_out_seq_length p) - i s < fuel ->
  Lib.compress_loop fuel ids p disabled_ids s <> OutOfFuel.
Proof.
  revert s. induction fuel as [|fuel IH]; intros s Hd Hf; [lia|].
  simpl.
  destruct (Nat.ltb_spec (i s) (length ids)) as [Hl|Hl];
  destruct (Nat.ltb_spec (i s) (max_out_seq_length p)) as [Hm|Hm];
    simpl; try discriminate.
  destruct (nth_error ids (i s)) as [id|] eqn:Hn; [|discriminate].
  rewrite (Hd (i s) id (le_n _) Hm Hn).
  destruct (merge_id p Lib.push s id) as [s1|] eqn:Hs1; [|discriminate].
  apply merge_id_i in Hs1. apply IH; simpl; [|lia].
  intros k x Hk. apply Hd. lia.
Qed.

Lemma merge_id_out_of_vocab p push s id :
  ids_to_merge s = [] -> initial_vocab_size p <= id ->
  Codebook.get (codebook s) [] = None ->
  merge_id p push s id = None.
Proof.
  intros Hc Hid Hg. unfold merge_id. rewrite Hc. cbn [app].
  unfold codebook_contains.
  replace (id <? initial_vocab_size p) with false by (symmetry; apply Nat.ltb_ge; exact Hid).
  cbn [negb]. unfold get_usize_from_codebook. cbn [removelast].
  destruct (_ <? _); rewrite ?get_insert_other by discriminate; rewrite Hg; reflexivity.
Qed.

Lemma emitted_below p cb nid em phs :
  cb_wf p cb nid -> emitted cb em phs ->
  Forall (fun x => x < initial_vocab_size p) (concat phs) ->
  Forall (fun c => c < initial_vocab_size p + max_codebook_size p) em.
Proof.
  intros Hwf [H2 _]. induction H2 as [|c ph em phs Hc _ IH]; intros Hb; [constructor|].
  simpl in Hb. apply Forall_app in Hb as [Hph Hb]. constructor; [|apply IH, Hb].
  destruct (get_usize_cases _ _ _ Hc) as [->|Hin].
  - inversion Hph. lia.
  - pose proof (values_ge p cb nid ph c Hwf Hin). destruct Hwf as (_ & -> & Hl & _). lia.
Qed.

Lemma windows_shape fuel cfuel ids num_tokens p disabled_ids i0 out cbv out' cbv' :
  File.compress_windows fuel cfuel ids num_tokens p disabled_ids i0 out cbv =
    Finished (Some (out', cbv')) ->
  exists k, length out' = length out + k * max_out_seq_length p /\
    length cbv' = length cbv + k * (max_codebook_size p * max_subtokens p).
Proof.
  revert i0 out cbv. induction fuel as [|fuel IH]; intros i0 out cbv H; [discriminate|].
  simpl in H.
  destruct ((i0 <? num_tokens) && (max_out_seq_length p <? num_tokens - i0)).
  2: { injection H as <- <-. exists 0. lia. }
  destruct (Main.compress cfuel ids i0 num_tokens p disabled_ids) as [[[c t] n]| |] eqn:Hc;
    try discriminate.
  destruct (Nat.eqb_spec (length c) (max_out_seq_length p)) as [Hlc|]; simpl in H;
    [|discriminate].
  destruct (IH _ _ _ H) as (k & H1 & H2).
  destruct (main_compress_consumed _ _ _ _ _ _ _ _ _ Hc) as (_ & _ & _ & Ht).
  exists (S k). rewrite length_app in H1, H2. simpl. nia.
Qed.

Lemma windows_terminate fuel cfuel ids num_tokens p disabled_ids i0 out cbv :
  2 <= max_out_seq_length p -> num_tokens - i0 < fuel -> num_tokens < cfuel ->
  File.compress_windows fuel cfuel ids num_tokens p disabled_ids i0 out cbv <> OutOfFuel.
Proof.
  intros Hm. revert i0 out cbv. induction fuel as [|fuel IH]; intros i0 out cbv Hf Hcf; [lia|].
  simpl.
  destruct (Nat.ltb_spec i0 num_tokens) as [Hi|Hi]; simpl; [|discriminate].
  destruct (_ <? _); [|discriminate].
  pose proof (main_compress_terminates cfuel ids i0 num_tokens p disabled_ids
                ltac:(lia)) as Ht.
  destruct (Main.compress cfuel ids i0 num_tokens p disabled_ids) as [[[c t] n]| |] eqn:Hc;
    [|discriminate|congruence].
  destruct (main_compress_consumed _ _ _ _ _ _ _ _ _ Hc) as (_ & Hn & _ & _).
  specialize (Hn Hi Hm).
  destruct (negb _); [discriminate|]. apply IH; lia.
Qed.

Lemma main_compress_stalls cfuel ids offset num_tokens p disabled_ids x :
  max_out_seq_length p = 1 -> offset < num_tokens ->
  nth_error ids offset = Some x -> x <> eot_token_id p ->
  Main.compress (S cfuel) ids offset num_tokens p disabled_ids =
    Finished ([eot_token_id p], Main.codebook_vec p Codebook.empty, 0).
Proof.
  intros Hm Ho Hn Hx. unfold Main.compress. rewrite Hn. unfold Main.init.
  replace (negb (x =? eot_token_id p)) with true
    by (destruct (Nat.eqb_spec x (eot_token_id p)); simpl; congruence).
  simpl. rewrite Hm, Nat.add_0_r, andb_false_r. simpl.
  destruct (max_subtokens p); reflexivity.
Qed.

Lemma windows_stall fuel cfuel ids num_tokens p disabled_ids i0 out cbv x :
  max_out_seq_length p = 1 -> 1 < num_tokens - i0 ->
  nth_error ids i0 = Some x -> x <> eot_token_id p -> 1 <= cfuel ->
  File.compress_windows fuel cfuel ids num_tokens p disabled_ids i0 out cbv = OutOfFuel.
Proof.
  intros Hm Hi Hn Hx Hcf. destruct cfuel as [|cf]; [lia|].
  revert out cbv. induction fuel as [|fuel IH]; intros out cbv; [reflexivity|].
  simpl. rewrite Hm.
  replace (i0 <? num_tokens) with true by (symmetry; apply Nat.ltb_lt; lia).
  replace (1 <? num_tokens - i0) with true by (symmetry; apply Nat.ltb_lt; lia).
  simpl. rewrite (main_compress_stalls cf ids i0 num_tokens p disabled_ids x Hm ltac:(lia) Hn Hx).
  simpl. rewrite Nat.add_0_r. apply IH.
Qed.

Section FileBytes.

Local Open Scope Z_scope.

Definition in_i32 (x : Z) : bool := (-2147483648 <=? x) && (x <? 2147483648).

Definition is_byte (b : Z) : bool := (0 <=? b) && (b <? 256).

Lemma i32_to_from_le x :
  in_i32 x = true ->
  let u := x mod 4294967296 in
  File.i32_from_le (u mod 256) ((u / 256) mod 256) ((u / 65536) mod 256) (u / 16777216) = x.
Proof.
  intros Hx u. unfold in_i32 in Hx. rewrite andb_true_iff, Z.leb_le, Z.ltb_lt in Hx.
  pose proof (Z.div_mod x 4294967296 ltac:(lia)) as Hq.
  pose proof (Z.mod_pos_bound x 4294967296 ltac:(lia)) as Hu.
  fold u in Hq, Hu.
  replace (u / 65536) with (u / 256 / 256) by (rewrite Z.div_div by lia; reflexivity).
  replace (u / 16777216) with (u / 256 / 256 / 256) by (rewrite !Z.div_div by lia; reflexivity).
  pose proof (Z.div_mod u 256 ltac:(lia)).
  pose proof (Z.div_mod (u / 256) 256 ltac:(lia)).
  pose proof (Z.div_mod (u / 256 / 256) 256 ltac:(lia)).
  pose proof (Z.mod_pos_bound u 256 ltac:(lia)).
  pose proof (Z.mod_pos_bound (u / 256) 256 ltac:(lia)).
  pose proof (Z.mod_pos_bound (u / 256 / 256) 256 ltac:(lia)).
  unfold File.i32_from_le.
  match goal with |- (if ?a <? _ then _ else _) = _ => replace a with u by lia end.
  destruct (Z.ltb_spec u 2147483648); lia.
Qed.

Lemma i32_to_le_bytes x : forallb is_byte (File.i32_to_le x) = true.
Proof.
  unfold File.i32_to_le, is_byte. set (u := x mod 4294967296).
  pose proof (Z.mod_pos_bound x 4294967296 ltac:(lia)) as Hu. fold u in Hu.
  assert (H16 : 0 <= u / 16777216 < 256).
  { split; [apply Z.div_pos; lia|apply Z.div_lt_upper_bound; lia]. }
  simpl. repeat rewrite andb_true_iff. rewrite !Z.leb_le, !Z.ltb_lt.
  repeat split; try apply Z.mod_pos_bound; lia.
Qed.

Lemma read_header_bytes h :
  forallb in_i32 h = true ->
  map (fun '(b0, b1, b2, b3) => File.i32_from_le b0 b1 b2 b3)
      (File.chunks4 (File.header_to_bytes h)) = h.
Proof.
  induction h as [|x h IH]; simpl; [reflexivity|].
  rewrite andb_true_iff. intros [Hx Hh].
  unfold File.header_to_bytes in *. simpl. unfold File.i32_to_le at 1. simpl.
  f_equal; [apply i32_to_from_le, Hx|apply IH, Hh].
Qed.

Lemma read_ids_bytes ids :
  map (fun '(b0, b1) => Z.to_nat (File.u16_from_le b0 b1)) (File.chunks2 (File.ids_to_bytes ids)) =
  map (fun x => Z.to_nat (File.as_u16 x)) ids.
Proof.
  induction ids as [|x ids IH]; simpl; [reflexivity|].
  unfold File.ids_to_bytes in *. simpl. f_equal; [|exact IH].
  unfold File.u16_from_le. f_equal.
  pose proof (Z.div_mod (File.as_u16 x) 256 ltac:(lia)). lia.
Qed.

Lemma header_to_bytes_length h : length (File.header_to_bytes h) = (4 * length h)%nat.
Proof.
  induction h as [|x h IH]; [reflexivity|].
  unfold File.header_to_bytes in *. simpl. rewrite IH. lia.
Qed.

Lemma ids_to_bytes_length ids : length (File.ids_to_bytes ids) = (2 * length ids)%nat.
Proof.
  induction ids as [|x ids IH]; [reflexivity|].
  unfold File.ids_to_bytes in *. simpl. rewrite IH. lia.
Qed.

Lemma read_input_written h ids :
  length h = 256%nat -> forallb in_i32 h = true ->
  File.read_input (File.header_to_bytes h ++ File.ids_to_bytes ids) =
    Some (h, map (fun x => Z.to_nat (File.as_u16 x)) ids).
Proof.
  intros Hl Hr. unfold File.read_input.
  pose proof (header_to_bytes_length h) as Hb. rewrite Hl in Hb. change (4 * 256)%nat with 1024%nat in Hb.
  rewrite length_app, Hb.
  replace (1024 + length (File.ids_to_bytes ids) <? 1024)%nat with false
    by (symmetry; apply Nat.ltb_ge; lia).
  rewrite <- Hb, firstn_app, skipn_app, firstn_all, skipn_all, Nat.sub_diag.
  rewrite firstn_O, skipn_O, app_nil_r, app_nil_l.
  rewrite read_header_bytes by exact Hr. rewrite read_ids_bytes. reflexivity.
Qed.

Lemma i32_from_le_range b0 b1 b2 b3 :
  is_byte b0 = true -> is_byte b1 = true -> is_byte b2 = true -> is_byte b3 = true ->
  in_i32 (File.i32_from_le b0 b1 b2 b3) = true.
Proof.
  unfold is_byte, in_i32, File.i32_from_le.
  rewrite !andb_true_iff, !Z.leb_le, !Z.ltb_lt. intros H0 H1 H2 H3.
  destruct (Z.ltb_spec (b0 + 256 * b1 + 65536 * b2 + 16777216 * b3) 2147483648); lia.
Qed.

Lemma chunks4_in_i32 (l : list Z) :
  forallb is_byte l = true ->
  forallb in_i32 (map (fun '(b0, b1, b2, b3) => File.i32_from_le b0 b1 b2 b3) (File.chunks4 l))
    = true.
Proof.
  remember (length l) as n eqn:Hn. revert l Hn.
  induction n as [n IH] using lt_wf_ind. intros l Hn Hl.
  destruct l as [|b0 [|b1 [|b2 [|b3 r]]]]; try reflexivity.
  simpl in Hl |- *. rewrite !andb_true_iff in Hl. destruct Hl as (H0 & H1 & H2 & H3 & Hr).
  rewrite i32_from_le_range by assumption. simpl.
  apply (IH (length r)); [simpl in Hn; lia|reflexivity|exact Hr].
Qed.

Lemma chunks4_length (l : list Z) : length (File.chunks4 l) = (length l / 4)%nat.
Proof.
  remember (length l) as n eqn:Hn. revert l Hn.
  induction n as [n IH] using lt_wf_ind. intros l Hn.
  destruct l as [|b0 [|b1 [|b2 [|b3 r]]]]; subst n; try reflexivity.
  cbn [File.chunks4 length]. rewrite (IH (length r)) by (cbn [length]; lia || reflexivity).
  replace (S (S (S (S (length r))))) with (length r + 1 * 4)%nat by lia.
  rewrite Nat.div_add by lia. lia.
Qed.

Lemma usize_as_i32_range x : in_i32 (File.usize_as_i32 x) = true.
Proof.
  unfold in_i32, File.usize_as_i32.
  pose proof (Z.mod_pos_bound (Z.of_nat x) 4294967296 ltac:(lia)).
  destruct (Z.ltb_spec (Z.of_nat x mod 4294967296) 2147483648);
    rewrite andb_true_iff, Z.leb_le, Z.ltb_lt; lia.
Qed.

End FileBytes.

Lemma list_set_spec (l : list Z) k v :
  k < length l ->
  exists l', File.list_set l k v = Some l' /\ length l' = length l /\
    forall j, nth_error l' j = if j =? k then Some v else nth_error l j.
Proof.
  revert k. induction l as [|x l IH]; intros k Hk; simpl in Hk; [lia|].
  destruct k as [|k].
  - exists (v :: l). split; [reflexivity|split; [reflexivity|]].
    intros [|j]; reflexivity.
  - destruct (IH k ltac:(lia)) as (l' & H1 & H2 & H3).
    exists (x :: l'). simpl. rewrite H1. split; [reflexivity|split; [simpl; lia|]].
    intros [|j]; simpl; [reflexivity|apply H3].
Qed.

Lemma forallb_nth_error {A : Type} (f : A -> bool) l j x :
  forallb f l = true -> nth_error l j = Some x -> f x = true.
Proof.
  intros Hl Hj. rewrite forallb_forall in Hl. apply Hl. eapply nth_error_In. exact Hj.
Qed.

Lemma list_set_forallb (f : Z -> bool) l k v l' :
  forallb f l = true -> f v = true -> File.list_set l k v = Some l' -> forallb f l' = true.
Proof.
  revert k l'. induction l as [|x l IH]; intros k l' Hl Hv H; [discriminate|].
  simpl in Hl. apply andb_true_iff in Hl as [Hx Hl].
  destruct k as [|k]; simpl in H.
  - injection H as <-. simpl. rewrite Hv. exact Hl.
  - destruct (File.list_set l k v) as [l1|] eqn:H1; simpl in H; [|discriminate].
    injection H as <-. simpl. rewrite Hx. exact (IH k l1 Hl Hv H1).
Qed.

Lemma read_input_header file header ids :
  forallb is_byte file = true -> File.read_input file = Some (header, ids) ->
  length header = 256 /\ forallb in_i32 header = true.
Proof.
  intros Hb. unfold File.read_input.
  destruct (Nat.ltb_spec (length file) 1024) as [|Hlen]; [discriminate|].
  set (hd := map _ (File.chunks4 (firstn 1024 file))). intros H.
  assert (E : hd = header) by congruence. rewrite <- E. unfold hd. split.
  - rewrite length_map, chunks4_length, length_firstn.
    replace (Nat.min 1024 (length file)) with 1024 by lia. reflexivity.
  - apply chunks4_in_i32. rewrite <- (firstn_skipn 1024 file), forallb_app in Hb.
    apply andb_true_iff in Hb as [Hb _]. exact Hb.
Qed.

Lemma compress_file_spec fuel cfuel p file cf cbf :
  forallb is_byte file = true ->
  File.compress_file fuel cfuel p file = Finished (Some (cf, cbf)) ->
  exists header ids h2 out cbv header' k,
    File.read_input file = Some (header, ids) /\
    nth_error header 2 = Some h2 /\
    File.compress_windows fuel cfuel ids (File.i32_as_usize h2) p [eot_token_id p] 0 [] [] =
      Finished (Some (out, cbv)) /\
    cbf = File.ids_to_bytes cbv /\
    File.read_input cf = Some (header', map (fun x => Z.to_nat (File.as_u16 x)) out) /\
    length out = k * max_out_seq_length p /\
    length cbv = k * (max_codebook_size p * max_subtokens p) /\
    nth_error header' 0 = Some 20240520%Z /\ nth_error header' 1 = Some 1%Z /\
    nth_error header' 2 = Some (File.usize_as_i32 (length out)) /\
    nth_error header' 3 = Some (File.usize_as_i32 k) /\
    nth_error header' 4 = Some (File.usize_as_i32 (max_codebook_size p)) /\
    nth_error header' 5 = Some (File.usize_as_i32 (max_subtokens p)) /\
    (forall j, 6 <= j -> nth_error header' j = nth_error header j).
Proof.
  intros Hb H. unfold File.compress_file in H.
  destruct (File.read_input file) as [[header ids]|] eqn:Hr; [|discriminate].
  destruct (nth_error header 0) as [h0|] eqn:H0; [|discriminate].
  destruct (nth_error header 1) as [h1|] eqn:H1; [|discriminate].
  destruct (nth_error header 2) as [h2|] eqn:H2; [|discriminate].
  destruct (Z.eqb_spec h0 20240520) as [->|]; cbn [negb] in H; [|discriminate].
  destruct (Z.eqb_spec h1 1) as [->|]; cbn [negb] in H; [|discriminate].
  change (disabled_ids_to_set (Some [eot_token_id p])) with (Some [eot_token_id p]) in H.
  cbv iota beta in H.
  destruct (File.compress_windows fuel cfuel ids (File.i32_as_usize h2) p [eot_token_id p] 0 [] [])
    as [[[out cbv]|]| |] eqn:Hw; try discriminate.
  destruct (Nat.eqb_spec (max_codebook_size p * max_subtokens p) 0) as [|Hnz];
    [discriminate|].
  destruct (File.update_header p header out cbv) as [header'|] eqn:Hu; cbv iota in H;
    [|discriminate].
  injection H as <- <-.
  destruct (read_input_header file header ids Hb Hr) as [Hhl Hhr].
  destruct (windows_shape _ _ _ _ _ _ _ _ _ _ _ Hw) as (k & Hko & Hkc).
  simpl in Hko, Hkc.
  unfold File.update_header in Hu.
  destruct (list_set_spec header 2 (File.usize_as_i32 (length out)) ltac:(lia))
    as (g2 & E2 & L2 & N2).
  rewrite E2 in Hu.
  destruct (list_set_spec g2 3 (File.usize_as_i32
              (length cbv / (max_codebook_size p * max_subtokens p))) ltac:(lia))
    as (g3 & E3 & L3 & N3).
  rewrite E3 in Hu.
  destruct (list_set_spec g3 4 (File.usize_as_i32 (max_codebook_size p)) ltac:(lia))
    as (g4 & E4 & L4 & N4).
  rewrite E4 in Hu.
  destruct (list_set_spec g4 5 (File.usize_as_i32 (max_subtokens p)) ltac:(lia))
    as (g5 & E5 & L5 & N5).
  rewrite E5 in Hu. injection Hu as <-.
  assert (Hr5 : forallb in_i32 g5 = true).
  { apply (list_set_forallb _ _ _ _ _ (list_set_forallb _ _ _ _ _
             (list_set_forallb _ _ _ _ _ (list_set_forallb _ _ _ _ _ Hhr
                (usize_as_i32_range _) E2) (usize_as_i32_range _) E3)
             (usize_as_i32_range _) E4) (usize_as_i32_range _) E5). }
  exists header, ids, h2, out, cbv, g5, k.
  do 4 (split; [first [reflexivity|assumption]|]).
  split; [apply read_input_written; [lia|exact Hr5]|].
  split; [lia|split; [lia|]].
  rewrite Hkc, Nat.div_mul in N3 by exact Hnz.
  do 6 (split; [rewrite N5, N4, N3, N2; cbn [Nat.eqb]; first [reflexivity|assumption]|]).
  intros j Hj. rewrite N5, N4, N3, N2.
  replace (j =? 5) with false by (symmetry; apply Nat.eqb_neq; lia).
  replace (j =? 4) with false by (symmetry; apply Nat.eqb_neq; lia).
  replace (j =? 3) with false by (symmetry; apply Nat.eqb_neq; lia).
  replace (j =? 2) with false by (symmetry; apply Nat.eqb_neq; lia).
  reflexivity.
Qed.

(** ** Properties of the code beyond the spec *)

(** X1: [disabled_ids_to_set] on a non-empty list gives a set that holds
    exactly the listed ids. *)
Theorem disabled_set_membership d :
  d <> [] ->
  exists set, disabled_ids_to_set (Some d) = Some set /\
    forall x, FastSet.contains set x = true <-> In x d.
Proof.
  intros Hd. destruct d as [|m r]; [congruence|].
  eexists. split; [reflexivity|]. intros x.
  rewrite fastset_fold_insert_contains.
  change (FastSet.contains (FastSet.with_capacity _) x) with false. rewrite orb_false_l.
  rewrite existsb_exists. split.
  - intros (y & Hy & He). apply Nat.eqb_eq in He. subst. exact Hy.
  - intros Hx. exists x. split; [exact Hx|apply Nat.eqb_refl].
Qed.

Lemma disabled_set_membership_witness :
  exists set, disabled_ids_to_set (Some [7; 3; 7]) = Some set /\
    forall x, FastSet.contains set x = true <-> In x [7; 3; 7].
Proof. apply (disabled_set_membership [7; 3; 7]). discriminate. Defined.

(** X3: pushing ids one by one with [push_to_compressed_ids] keeps the ids
    that fit under [max_out_seq_length] and silently drops the rest. *)
Theorem push_to_compressed_ids_fold p v em :
  fold_left (Main.push p) em v = v ++ firstn (max_out_seq_length p - length v) em /\
  length (fold_left (Main.push p) em v) =
    Nat.max (length v) (Nat.min (max_out_seq_length p) (length v + length em)).
Proof.
  rewrite fold_left_main_push. split; [reflexivity|].
  rewrite length_app, length_firstn. lia.
Qed.

(** X4: whatever the codebook, the serialized table of lib.rs has
    [max_codebook_size] rows of [max_subtokens] ids, and the flat table of
    main.rs has [max_codebook_size * max_subtokens] ids. *)
Theorem codebook_table_shape p cb :
  length (Lib.codebook_vec p cb) = max_codebook_size p /\
  Forall (fun row => length row = max_subtokens p) (Lib.codebook_vec p cb) /\
  length (Main.codebook_vec p cb) = max_codebook_size p * max_subtokens p.
Proof.
  split; [apply resize_length|split; [|apply resize_length]].
  unfold Lib.codebook_vec. apply resize_Forall; [|apply repeat_length].
  apply Forall_forall. intros row Hrow. apply in_map_iff in Hrow as (e & <- & _).
  apply resize_length.
Qed.

(** X5: the loop of main.rs [compress] advances [i] on every iteration, so
    it runs at most [num_tokens - offset] iterations: with more fuel than
    that, [compress] returns or panics. *)
Theorem main_compress_bounded_loop fuel ids offset num_tokens p disabled_ids :
  num_tokens - offset < fuel ->
  Main.compress fuel ids offset num_tokens p disabled_ids <> OutOfFuel.
Proof. apply main_compress_terminates. Qed.

Lemma main_compress_bounded_loop_witness :
  Main.compress 4 [5; 6; 0; 7] 1 4 (Params 100 4 3 4 0) [0] <> OutOfFuel.
Proof. apply (main_compress_bounded_loop 4 [5; 6; 0; 7] 1 4 (Params 100 4 3 4 0) [0]). lia. Defined.

(** X6: the number [n] of ids a main.rs [compress] call consumes is at
    most [num_tokens - offset]; it is at least 1 when there are ids left
    and [max_out_seq_length >= 2]; it is 0 when [max_out_seq_length <= 1]
    and the first id is not the boundary marker.  The codebook table has
    [max_codebook_size * max_subtokens] ids. *)
Theorem main_compress_consumed_count fuel ids offset num_tokens p disabled_ids out tbl n :
  Main.compress fuel ids offset num_tokens p disabled_ids = Finished (out, tbl, n) ->
  n <= num_tokens - offset /\
  (offset < num_tokens -> 2 <= max_out_seq_length p -> 1 <= n) /\
  (max_out_seq_length p <= 1 -> nth_error ids offset <> Some (eot_token_id p) -> n = 0) /\
  length tbl = max_codebook_size p * max_subtokens p.
Proof. apply main_compress_consumed. Qed.

Lemma main_compress_consumed_count_witness :
  3 <= 4 - 1 /\
  (1 < 4 -> 2 <= 4 -> 1 <= 3) /\
  (4 <= 1 -> nth_error [5; 6; 0; 7] 1 <> Some 0 -> 3 = 0) /\
  length [0; 0; 0; 0; 0; 0; 0; 0; 0; 0; 0; 0] = 4 * 3.
Proof.
  exact (main_compress_consumed_count 10 [5; 6; 0; 7] 1 4 (Params 100 4 3 4 0) [0]
           [0; 6; 0; 7] [0; 0; 0; 0; 0; 0; 0; 0; 0; 0; 0; 0] 3
           ltac:(vm_compute; reflexivity)).
Defined.

(** X7: an id that is not disabled and not below [initial_vocab_size],
    met first, makes [compress] panic: its one-id candidate is not in the
    codebook and the empty prefix popped from it is looked up. *)
Theorem out_of_vocab_first_id_panics :
  (forall fuel x rest p disabled_ids,
     initial_vocab_size p <= x -> FastSet.contains disabled_ids x = false ->
     0 < max_out_seq_length p ->
     Lib.compress (S fuel) (x :: rest) p disabled_ids = Panicked) /\
  (forall fuel ids offset num_tokens p disabled_ids x,
     nth_error ids offset = Some x -> initial_vocab_size p <= x ->
     FastSet.contains disabled_ids x = false ->
     offset < num_tokens -> 2 <= max_out_seq_length p ->
     Main.compress (S fuel) ids offset num_tokens p disabled_ids = Panicked).
Proof.
  split.
  - intros fuel x rest p disabled_ids Hx Hd Hm. unfold Lib.compress.
    cbn [Lib.compress_loop Lib.init i length].
    replace (0 <? S (length rest)) with true by reflexivity.
    replace (0 <? max_out_seq_length p) with true by (symmetry; apply Nat.ltb_lt; exact Hm).
    cbn [andb nth_error]. rewrite Hd.
    rewrite merge_id_out_of_vocab by (simpl; auto). reflexivity.
  - intros fuel ids offset num_tokens p disabled_ids x Hn Hx Hd Ho Hm.
    unfold Main.compress. rewrite Hn.
    pose proof (main_init_length p x) as Hl.
    cbn [Main.compress_loop].
    replace (offset + i (Main.init p x) <? num_tokens) with true
      by (symmetry; apply Nat.ltb_lt; simpl; lia).
    replace (length (compressed_ids (Main.init p x)) <? max_out_seq_length p) with true
      by (symmetry; apply Nat.ltb_lt; lia).
    cbn [andb]. replace (offset + i (Main.init p x)) with offset by (simpl; lia).
    rewrite Hn, Hd, merge_id_out_of_vocab by (simpl; auto). reflexivity.
Qed.

Lemma out_of_vocab_first_id_panics_witness :
  Lib.compress 1 [150; 5] (Params 100 4 3 4 0) [] = Panicked /\
  Main.compress 1 [5; 150; 5] 1 3 (Params 100 4 3 4 0) [0] = Panicked.
Proof.
  split.
  - apply (proj1 out_of_vocab_first_id_panics 0 150 [5] (Params 100 4 3 4 0) []);
      simpl; [lia|reflexivity|lia].
  - apply (proj2 out_of_vocab_first_id_panics 0 [5; 150; 5] 1 3 (Params 100 4 3 4 0) [0] 150);
      simpl; first [reflexivity|lia].
Defined.

(** X8: when every input id is below [initial_vocab_size], every output id
    is below [initial_vocab_size + max_codebook_size] (in main.rs, apart
    from the boundary marker forced at the start). *)
Theorem output_ids_below_vocab :
  (forall fuel ids p disabled_ids out tbl rest,
     Forall (fun x => x < initial_vocab_size p) ids ->
     Lib.compress fuel ids p disabled_ids = Finished (out, tbl, rest) ->
     Forall (fun c => c < initial_vocab_size p + max_codebook_size p) out) /\
  (forall fuel ids offset num_tokens p disabled_ids out tbl n,
     Forall (fun x => x < initial_vocab_size p) ids ->
     Main.compress fuel ids offset num_tokens p disabled_ids = Finished (out, tbl, n) ->
     Forall (fun c => c = eot_token_id p \/
                      c < initial_vocab_size p + max_codebook_size p) out).
Proof.
  split.
  - intros fuel ids p disabled_ids out tbl rest Hids H. unfold Lib.compress in H.
    destruct (Lib.compress_loop fuel ids p disabled_ids (Lib.init p)) as [s| |] eqn:Hl;
      try discriminate.
    destruct (final_flush p Lib.push s) as [out'|] eqn:Hf; [|discriminate].
    injection H as <- _ _.
    destruct (lib_run fuel ids p disabled_ids s out' Hl Hf) as ((Hwf & _) & _ & phs & Hem & Hcat).
    apply (emitted_below p _ _ _ _ Hwf Hem). rewrite Hcat. apply Forall_firstn', Hids.
  - intros fuel ids offset num_tokens p disabled_ids out tbl n Hids H. unfold Main.compress in H.
    destruct (nth_error ids offset) as [first|]; [|discriminate].
    destruct (Main.compress_loop fuel ids offset num_tokens p disabled_ids (Main.init p first))
      as [s| |] eqn:Hl; try discriminate.
    destruct (final_flush p (Main.push p) s) as [out'|] eqn:Hf; [|discriminate].
    injection H as <- _ _.
    destruct (main_run fuel ids offset num_tokens p disabled_ids first s out' Hl Hf)
      as ((Hwf & _) & _ & _ & em & phs & -> & Hem & _ & Hcat).
    rewrite fold_left_main_push. apply Forall_app. split.
    + unfold Main.init. simpl. destruct (negb _); repeat constructor.
    + apply Forall_firstn'. eapply Forall_impl; [intros c Hc; right; exact Hc|].
      apply (emitted_below p _ _ _ _ Hwf Hem). rewrite Hcat.
      apply Forall_firstn', Forall_skipn', Hids.
Qed.

Lemma output_ids_below_vocab_witness :
  Forall (fun c => c < 100 + 4) [5; 6; 100] /\
  Forall (fun c => c = 0 \/ c < 100 + 4) [0; 6; 0; 7].
Proof.
  split.
  - apply (proj1 output_ids_below_vocab 10 [5; 6; 5; 6] (Params 100 4 3 4 0) []
             [5; 6; 100] [[5; 6; 0]; [6; 5; 0]; [0; 0; 0]; [0; 0; 0]] None).
    + repeat constructor; lia.
    + vm_compute. reflexivity.
  - apply (proj2 output_ids_below_vocab 10 [5; 6; 0; 7] 1 4 (Params 100 4 3 4 0) [0]
             [0; 6; 0; 7] [0; 0; 0; 0; 0; 0; 0; 0; 0; 0; 0; 0] 3).
    + repeat constructor; lia.
    + vm_compute. reflexivity.
Defined.

(** X9: a window loop of [compress_file] that runs to its end has added
    only whole windows: [k] windows of [max_out_seq_length] ids each, and
    [k] codebook tables of [max_codebook_size * max_subtokens] ids. *)
Theorem compress_windows_whole_windows fuel cfuel ids num_tokens p disabled_ids i0 out cbv
    out' cbv' :
  File.compress_windows fuel cfuel ids num_tokens p disabled_ids i0 out cbv =
    Finished (Some (out', cbv')) ->
  exists k, length out' = length out + k * max_out_seq_length p /\
    length cbv' = length cbv + k * (max_codebook_size p * max_subtokens p).
Proof. apply windows_shape. Qed.

Lemma compress_windows_whole_windows_witness :
  exists k, length [0; 5; 6; 100; 0; 7; 8; 100] = length (@nil nat) + k * 4 /\
    length [5; 6; 0; 6; 5; 0; 0; 0; 0; 0; 0; 0; 7; 8; 0; 8; 7; 0; 7; 8; 9; 0; 0; 0] =
      length (@nil nat) + k * (4 * 3).
Proof.
  exact (compress_windows_whole_windows 100 100 [0; 5; 6; 5; 6; 0; 7; 8; 7; 8; 9; 0; 5; 6] 14
           (Params 100 4 3 4 0) [0] 0 [] [] [0; 5; 6; 100; 0; 7; 8; 100]
           [5; 6; 0; 6; 5; 0; 0; 0; 0; 0; 0; 0; 7; 8; 0; 8; 7; 0; 7; 8; 9; 0; 0; 0]
           ltac:(vm_compute; reflexivity)).
Defined.

(** X10: with [max_out_seq_length >= 2], every window consumes at least
    one id, so the window loop of [compress_file] ends (or panics) within
    [num_tokens - i + 1] windows, when each [compress] call has more fuel
    than [num_tokens]. *)
Theorem compress_windows_terminates fuel cfuel ids num_tokens p disabled_ids i0 out cbv :
  2 <= max_out_seq_length p -> num_tokens - i0 < fuel -> num_tokens < cfuel ->
  File.compress_windows fuel cfuel ids num_tokens p disabled_ids i0 out cbv <> OutOfFuel.
Proof. apply windows_terminate. Qed.

Lemma compress_windows_terminates_witness :
  File.compress_windows 15 15 [0; 5; 6; 5; 6; 0; 7; 8; 7; 8; 9; 0; 5; 6] 14
    (Params 100 4 3 4 0) [0] 0 [] [] <> OutOfFuel.
Proof.
  apply (compress_windows_terminates 15 15 [0; 5; 6; 5; 6; 0; 7; 8; 7; 8; 9; 0; 5; 6] 14
           (Params 100 4 3 4 0) [0] 0 [] []); simpl; lia.
Defined.

(** X11: with [max_out_seq_length = 1], a window that starts on an id other
    than the boundary marker holds only the forced marker and consumes no
    id, so the window loop of [compress_file] repeats it forever. *)
Theorem compress_windows_stalls fuel cfuel ids num_tokens p disabled_ids i0 out cbv x :
  max_out_seq_length p = 1 -> 1 < num_tokens - i0 ->
  nth_error ids i0 = Some x -> x <> eot_token_id p -> 1 <= cfuel ->
  File.compress_windows fuel cfuel ids num_tokens p disabled_ids i0 out cbv = OutOfFuel.
Proof. apply windows_stall. Qed.

Lemma compress_windows_stalls_witness :
  File.compress_windows 50 10 [0; 5; 6; 5; 6; 0; 7] 7 (Params 100 4 3 1 0) [0] 1 [] [] =
    OutOfFuel.
Proof.
  apply (compress_windows_stalls 50 10 [0; 5; 6; 5; 6; 0; 7] 7 (Params 100 4 3 1 0) [0] 1 [] [] 5);
    simpl; first [reflexivity|lia|discriminate].
Defined.

(** X12: the bytes [compress_file] writes (256 header values as
    little-endian [i32], then the ids as little-endian [u16]) are read
    back by the same reading code as the header and the ids taken modulo
    2^16. *)
Theorem file_format_round_trip header ids :
  length header = 256 -> forallb in_i32 header = true ->
  File.read_input (File.header_to_bytes header ++ File.ids_to_bytes ids) =
    Some (header, map (fun x => Z.to_nat (File.as_u16 x)) ids).
Proof. apply read_input_written. Qed.

Lemma file_format_round_trip_witness :
  File.read_input (File.header_to_bytes ([20240520%Z; 1%Z; 14%Z] ++ repeat 0%Z 253) ++
                   File.ids_to_bytes [0; 5; 100]) =
    Some ([20240520%Z; 1%Z; 14%Z] ++ repeat 0%Z 253,
          map (fun x => Z.to_nat (File.as_u16 x)) [0; 5; 100]).
Proof.
  apply file_format_round_trip; vm_compute; reflexivity.
Defined.

(** X13: when [compress_file] writes its files (the input bytes being
    bytes), reading the compressed file back gives the window loop's ids
    (modulo 2^16) and a header that keeps the input header except for
    entries 2 to 5: the number of ids, the number [k] of windows, the
    codebook size and the number of subtokens; the codebook file holds the
    [k] tables. *)
Theorem compress_file_output fuel cfuel p file cf cbf :
  forallb is_byte file = true ->
  File.compress_file fuel cfuel p file = Finished (Some (cf, cbf)) ->
  exists header ids h2 out cbv header' k,
    File.read_input file = Some (header, ids) /\
    nth_error header 2 = Some h2 /\
    File.compress_windows fuel cfuel ids (File.i32_as_usize h2) p [eot_token_id p] 0 [] [] =
      Finished (Some (out, cbv)) /\
    cbf = File.ids_to_bytes cbv /\
    File.read_input cf = Some (header', map (fun x => Z.to_nat (File.as_u16 x)) out) /\
    length out = k * max_out_seq_length p /\
    length cbv = k * (max_codebook_size p * max_subtokens p) /\
    nth_error header' 0 = Some 20240520%Z /\ nth_error header' 1 = Some 1%Z /\
    nth_error header' 2 = Some (File.usize_as_i32 (length out)) /\
    nth_error header' 3 = Some (File.usize_as_i32 k) /\
    nth_error header' 4 = Some (File.usize_as_i32 (max_codebook_size p)) /\
    nth_error header' 5 = Some (File.usize_as_i32 (max_subtokens p)) /\
    (forall j, 6 <= j -> nth_error header' j = nth_error header j).
Proof. apply compress_file_spec. Qed.

Lemma compress_file_output_witness :
  exists cf cbf,
    File.compress_file 100 100 (Params 100 4 3 4 0)
      (File.header_to_bytes ([20240520%Z; 1%Z; 14%Z] ++ repeat 0%Z 253) ++
       File.ids_to_bytes [0; 5; 6; 5; 6; 0; 7; 8; 7; 8; 9; 0; 5; 6]) = Finished (Some (cf, cbf)) /\
  exists header ids h2 out cbv header' k,
    File.read_input (File.header_to_bytes ([20240520%Z; 1%Z; 14%Z] ++ repeat 0%Z 253) ++
       File.ids_to_bytes [0; 5; 6; 5; 6; 0; 7; 8; 7; 8; 9; 0; 5; 6]) = Some (header, ids) /\
    nth_error header 2 = Some h2 /\
    File.compress_windows 100 100 ids (File.i32_as_usize h2) (Params 100 4 3 4 0) [0] 0 [] [] =
      Finished (Some (out, cbv)) /\
    cbf = File.ids_to_bytes cbv /\
    File.read_input cf = Some (header', map (fun x => Z.to_nat (File.as_u16 x)) out) /\
    length out = k * 4 /\
    length cbv = k * (4 * 3) /\
    nth_error header' 0 = Some 20240520%Z /\ nth_error header' 1 = Some 1%Z /\
    nth_error header' 2 = Some (File.usize_as_i32 (length out)) /\
    nth_error header' 3 = Some (File.usize_as_i32 k) /\
    nth_error header' 4 = Some (File.usize_as_i32 4) /\
    nth_error header' 5 = Some (File.usize_as_i32 3) /\
    (forall j, 6 <= j -> nth_error header' j = nth_error header j).
Proof.
  lazymatch eval vm_compute in
    (File.compress_file 100 100 (Params 100 4 3 4 0)
       (File.header_to_bytes ([20240520%Z; 1%Z; 14%Z] ++ repeat 0%Z 253) ++
        File.ids_to_bytes [0; 5; 6; 5; 6; 0; 7; 8; 7; 8; 9; 0; 5; 6])) with
  | Finished (Some (?cf, ?cbf)) =>
      exists cf, cbf; split; [vm_compute; reflexivity|];
      exact (compress_file_output 100 100 (Params 100 4 3 4 0)
               (File.header_to_bytes ([20240520%Z; 1%Z; 14%Z] ++ repeat 0%Z 253) ++
                File.ids_to_bytes [0; 5; 6; 5; 6; 0; 7; 8; 7; 8; 9; 0; 5; 6]) cf cbf
               ltac:(vm_compute; reflexivity) ltac:(vm_compute; reflexivity))
  end.
Defined.

(** X14: the loop of lib.rs [compress] ends within
    [min (length ids) max_out_seq_length] iterations when none of the ids
    it reaches is disabled: [compress] then returns or panics. *)
Theorem lib_compress_bounded_loop fuel ids p disabled_ids :
  (forall k x, k < max_out_seq_length p -> nth_error ids k = Some x ->
     FastSet.contains disabled_ids x = false) ->
  Nat.min (length ids) (max_out_seq_length p) < fuel ->
  Lib.compress fuel ids p disabled_ids <> OutOfFuel.
Proof.
  intros Hd Hf. unfold Lib.compress.
  pose proof (lib_loop_terminates fuel ids p disabled_ids (Lib.init p)
                ltac:(intros k x _; apply Hd) ltac:(simpl; lia)) as Ht.
  destruct (Lib.compress_loop fuel ids p disabled_ids (Lib.init p)); [|discriminate|congruence].
  destruct (final_flush _ _ _); discriminate.
Qed.

Lemma lib_compress_bounded_loop_witness :
  Lib.compress 5 [5; 6; 5; 6; 0; 7] (Params 100 4 3 4 0) [0] <> OutOfFuel.
Proof.
  apply (lib_compress_bounded_loop 5 [5; 6; 5; 6; 0; 7] (Params 100 4 3 4 0) [0]).
  - intros k x Hk Hx. simpl in Hk.
    destruct k as [|[|[|[|k]]]]; try lia; simpl in Hx; injection Hx as <-; reflexivity.
  - simpl. lia.
Defined.
